(** * OpenAPI spec validator: the lint-report normaliser and the chunked
      AI repair loop

    The repository holds several drafts of one Express server.  Three of them
    are embedded here, each in a module of its own:

    - [Detailed]: the draft whose [formatSpectralOutput] builds a summary and
      a list of issues with a severity label (severityMap);
    - [Simple]: index.js, whose [getAiFixes] sends the whole YAML text with
      chunks of five issues;
    - [Regions]: the draft whose [getAiFixes] groups the issues by top-level
      key (or by individual path), sends one YAML chunk per group and merges
      the answer back with Object.assign.

    JSON.parse, js-yaml's load and dump, and fetch are libraries or services
    outside the repository: they are fields of the record [Env]. *)

From Stdlib Require Import String Ascii List ZArith Bool Arith Lia Permutation.
From Stdlib Require Import DecimalString DecimalZ Sorted.
Import ListNotations.
Local Open Scope list_scope.
Local Open Scope string_scope.

(** ** Computations that may throw *)

Inductive outcome (A : Type) : Type :=
| Ok (a : A)
| Throw (message : string).
Arguments Ok {A} a.
Arguments Throw {A} message.

Definition bind {A B : Type} (m : outcome A) (k : A -> outcome B) : outcome B :=
  match m with
  | Ok a => k a
  | Throw e => Throw e
  end.

Notation "x <- m ;; k" := (bind m (fun x => k))
  (at level 61, m at next level, right associativity).

(** ** JavaScript strings

    A string is its text in UTF-8, one [ascii] for each byte.  The patterns
    the code looks for (the dot of a path, the fences of a YAML block, the
    words of a failure) are ASCII, so looking for them byte by byte is looking
    for them in the text. *)

Module Str.

Definition nl : string := String (ascii_of_nat 10) "".

(** [s.startsWith(p)] *)
Definition startsWith (s p : string) : bool := String.prefix p s.

(** [s.split(sep)] for a one-character separator: never the empty list. *)
Fixpoint split (sep : ascii) (s : string) : list string :=
  match s with
  | EmptyString => [EmptyString]
  | String c r =>
      if Ascii.eqb c sep then EmptyString :: split sep r
      else match split sep r with
           | h :: t => String c h :: t
           | [] => [String c EmptyString]
           end
  end.

(** White space of [String.prototype.trim] in the ASCII range: TAB, LF, VT,
    FF, CR and SPACE. *)
Definition is_space (c : ascii) : bool :=
  let n := nat_of_ascii c in
  ((9 <=? n)%nat && (n <=? 13)%nat) || (n =? 32)%nat.

(** The white space past the ASCII range, as UTF-8 writes it: U+00A0 in two
    bytes; U+1680, U+2000 to U+200A, U+2028, U+2029, U+202F, U+205F, U+3000
    and U+FEFF in three. *)
Definition is_space2 (c d : ascii) : bool :=
  ((nat_of_ascii c =? 194) && (nat_of_ascii d =? 160))%nat.

Definition is_space3 (c d e : ascii) : bool :=
  let c := nat_of_ascii c in
  let d := nat_of_ascii d in
  let e := nat_of_ascii e in
  (((c =? 225) && (d =? 154) && (e =? 128))
   || ((c =? 226) && (d =? 128)
       && (((128 <=? e) && (e <=? 138)) || (e =? 168) || (e =? 169)
           || (e =? 175)))
   || ((c =? 226) && (d =? 129) && (e =? 159))
   || ((c =? 227) && (d =? 128) && (e =? 128))
   || ((c =? 239) && (d =? 187) && (e =? 191)))%nat.

Fixpoint trimStart (s : string) : string :=
  match s with
  | EmptyString => EmptyString
  | String c r =>
      if is_space c then trimStart r
      else match r with
           | String d r2 =>
               if is_space2 c d then trimStart r2
               else match r2 with
                    | String e r3 => if is_space3 c d e then trimStart r3 else s
                    | EmptyString => s
                    end
           | EmptyString => s
           end
  end.

(** A text made of white space only. *)
Fixpoint spaces (s : string) : bool :=
  match s with
  | EmptyString => true
  | String c r =>
      if is_space c then spaces r
      else match r with
           | String d r2 =>
               if is_space2 c d then spaces r2
               else match r2 with
                    | String e r3 => is_space3 c d e && spaces r3
                    | EmptyString => false
                    end
           | EmptyString => false
           end
  end.

Fixpoint trimEnd (s : string) : string :=
  match s with
  | EmptyString => EmptyString
  | String c r => if spaces s then EmptyString else String c (trimEnd r)
  end.

Definition trim (s : string) : string := trimEnd (trimStart s).

(** [s] contains the character [c]. *)
Fixpoint has (c : ascii) (s : string) : bool :=
  match s with
  | EmptyString => false
  | String c' r => Ascii.eqb c' c || has c r
  end.

(** First occurrence of [pat] in [s]: the text before it and the text after. *)
Fixpoint cut (pat s : string) : option (string * string) :=
  if String.prefix pat s
  then Some (EmptyString, substring (String.length pat) (String.length s) s)
  else match s with
       | EmptyString => None
       | String c r =>
           match cut pat r with
           | Some (before, after) => Some (String c before, after)
           | None => None
           end
       end.

End Str.

(** ** JavaScript values

    The values JSON.parse and yaml.load produce, and [undefined] and [NaN],
    which the code computes from them.  Numbers are the integers (severity
    codes, line and column numbers, HTTP status codes).  An object is the list
    of its own properties in insertion order, and a document is a tree: an
    alias of a YAML anchor, which makes two places of a document one object,
    has no counterpart here.  A value does not say what the prototype of an
    object is: the objects of JSON.parse and yaml.load have Object.prototype,
    whose members matter where the code uses a fresh object as a dictionary
    ([inherited], [Regions.push]) and where it writes a property named
    "__proto__" ([object], [put]). *)

#[local] Set Warnings "-register-all".

Inductive value : Type :=
| VUndefined
| VNull
| VBool (b : bool)
| VNum (n : Z)
| VNaN
| VStr (s : string)
| VArr (items : list value)
| VObj (props : list (string * value)).

Module JS.

Definition Z_to_string (n : Z) : string := NilEmpty.string_of_int (Z.to_int n).

Definition nat_to_string (n : nat) : string := Z_to_string (Z.of_nat n).

(** ToString; on an array it is [join(",")], whose holes, [null] and
    [undefined] print as the empty string. *)
Fixpoint toString (v : value) : string :=
  let fix join (sep : string) (l : list value) : string :=
    match l with
    | [] => ""
    | x :: r =>
        let sx := match x with
                  | VUndefined | VNull => ""
                  | _ => toString x
                  end in
        match r with
        | [] => sx
        | _ :: _ => sx ++ sep ++ join sep r
        end
    end in
  match v with
  | VUndefined => "undefined"
  | VNull => "null"
  | VBool true => "true"
  | VBool false => "false"
  | VNum n => Z_to_string n
  | VNaN => "NaN"
  | VStr s => s
  | VArr l => join "," l
  | VObj _ => "[object Object]"
  end.

(** The text of one array element inside [join]. *)
Definition segment (x : value) : string :=
  match x with
  | VUndefined | VNull => ""
  | _ => toString x
  end.

(** [Array.prototype.join] on the elements of an array. *)
Fixpoint array_join (sep : string) (l : list value) : string :=
  match l with
  | [] => ""
  | x :: r =>
      match r with
      | [] => segment x
      | _ :: _ => segment x ++ sep ++ array_join sep r
      end
  end.

(** Truthiness: [undefined], [null], [false], [0], [NaN] and [""] are falsy. *)
Definition truthy (v : value) : bool :=
  match v with
  | VUndefined | VNull | VNaN => false
  | VBool b => b
  | VNum n => negb (n =? 0)%Z
  | VStr s => negb (s =? "")
  | VArr _ | VObj _ => true
  end.

Definition nullish (v : value) : bool :=
  match v with
  | VUndefined | VNull => true
  | _ => false
  end.

(** Own property named [k], first match. *)
Fixpoint lookup (k : string) (props : list (string * value)) : option value :=
  match props with
  | [] => None
  | (k', v) :: r => if k' =? k then Some v else lookup k r
  end.

(** [k] as an array index: the decimal numeral, written without leading
    zeros, of a number below 2^32 - 1. *)
Definition array_index (k : string) : option N :=
  match NilEmpty.uint_of_string k with
  | Some d =>
      let n := N.of_uint d in
      if (Z_to_string (Z.of_N n) =? k) && (n <? 4294967295)%N
      then Some n else None
  | None => None
  end.

(** [items[i]] *)
Fixpoint item_at (items : list value) (i : N) : value :=
  match items with
  | [] => VUndefined
  | x :: r => if (i =? 0)%N then x else item_at r (N.pred i)
  end.

Definition chars (s : string) : list value :=
  map (fun c => VStr (String c "")) (list_ascii_of_string s).

(** Property read [v[k]] (or [v.k]): a TypeError on [undefined] and [null],
    [undefined] for a property that is absent.  Own properties only: a name of
    Object.prototype that the object has no property for reads as [undefined]
    here (a function is no value of the model). *)
Definition get (v : value) (k : string) : outcome value :=
  match v with
  | VUndefined => Throw "TypeError: Cannot read properties of undefined"
  | VNull => Throw "TypeError: Cannot read properties of null"
  | VObj props =>
      Ok (match lookup k props with Some x => x | None => VUndefined end)
  | VArr items =>
      if k =? "length" then Ok (VNum (Z.of_nat (List.length items)))
      else match array_index k with
           | Some i => Ok (item_at items i)
           | None => Ok VUndefined
           end
  | VStr s =>
      if k =? "length" then Ok (VNum (Z.of_nat (String.length s)))
      else match array_index k with
           | Some i => Ok (item_at (chars s) i)
           | None => Ok VUndefined
           end
  | VBool _ | VNum _ | VNaN => Ok VUndefined
  end.

(** Optional chaining [v?.k] (and [v?.[k]]). *)
Definition get_opt (v : value) (k : string) : outcome value :=
  if nullish v then Ok VUndefined else get v k.

(** [for (const item of v)]: arrays and strings are iterable. *)
Definition iterate (v : value) : outcome (list value) :=
  match v with
  | VArr items => Ok items
  | VStr s => Ok (chars s)
  | _ => Throw "TypeError: results is not iterable"
  end.

(** [v.join(sep)]: only arrays have the method. *)
Definition join (v : value) (sep : string) : outcome string :=
  match v with
  | VArr items => Ok (array_join sep items)
  | VUndefined => Throw "TypeError: Cannot read properties of undefined"
  | VNull => Throw "TypeError: Cannot read properties of null"
  | _ => Throw "TypeError: item.path.join is not a function"
  end.

(** Property write [o[k] = v] on the list of own properties: an existing
    property keeps its place, a new one goes last. *)
Fixpoint set (k : string) (v : value) (props : list (string * value))
  : list (string * value) :=
  match props with
  | [] => [(k, v)]
  | (k', v') :: r => if k' =? k then (k', v) :: r else (k', v') :: set k v r
  end.

(** The order in which [for (... in ...)] and [Object.assign] go through the
    own properties of an object: the array indices in ascending order, then
    the other names in the order of their creation. *)
Fixpoint place {A : Type} (n : N) (kv : string * A) (sorted : list (string * A))
  : list (string * A) :=
  match sorted with
  | [] => [kv]
  | kv' :: r =>
      match array_index (fst kv') with
      | Some m => if (n <? m)%N then kv :: sorted else kv' :: place n kv r
      | None => kv :: sorted
      end
  end.

Fixpoint indices {A : Type} (props : list (string * A)) : list (string * A) :=
  match props with
  | [] => []
  | kv :: r =>
      match array_index (fst kv) with
      | Some n => place n kv (indices r)
      | None => indices r
      end
  end.

Fixpoint names {A : Type} (props : list (string * A)) : list (string * A) :=
  match props with
  | [] => []
  | kv :: r =>
      match array_index (fst kv) with
      | Some _ => names r
      | None => kv :: names r
      end
  end.

Definition ordered {A : Type} (props : list (string * A)) : list (string * A) :=
  (indices props ++ names props)%list.

Fixpoint indexed (i : nat) (l : list value) : list (string * value) :=
  match l with
  | [] => []
  | x :: r => (nat_to_string i, x) :: indexed (S i) r
  end.

(** The own enumerable properties [Object.assign] copies from a source. *)
Definition own_props (source : value) : list (string * value) :=
  match source with
  | VObj props => ordered props
  | VArr items => indexed 0 items
  | VStr s => indexed 0 (chars s)
  | _ => []
  end.

(** The names of the members every object inherits from Object.prototype; each
    of them is a function, but for "__proto__", which reads as the prototype:
    all of them are truthy, none has a [push] method. *)
Definition inherited (k : string) : bool :=
  existsb (String.eqb k)
    ["constructor"; "__defineGetter__"; "__defineSetter__"; "hasOwnProperty";
     "__lookupGetter__"; "__lookupSetter__"; "isPrototypeOf";
     "propertyIsEnumerable"; "toString"; "valueOf"; "__proto__";
     "toLocaleString"].

(** An object under [Object.assign]: its own properties, and its prototype,
    which is Object.prototype until a write of "__proto__" replaces it. *)
Inductive prototype : Type :=
| ObjectPrototype
| NullPrototype
| Replaced (p : value).

Record object : Type := {
  proto : prototype;
  own : list (string * value)
}.

Definition plain (props : list (string * value)) : object :=
  {| proto := ObjectPrototype; own := props |}.

(** A write of "__proto__" on [o] finds the setter of Object.prototype: [o]
    has no own property of that name, and the chain of its prototypes leads to
    Object.prototype past no property of that name (js-yaml gives a mapping
    that has the key an own property for it). *)
Definition finds_setter (o : object) : bool :=
  match lookup "__proto__" (own o) with
  | Some _ => false
  | None =>
      match proto o with
      | ObjectPrototype => true
      | NullPrototype => false
      | Replaced (VObj props) =>
          match lookup "__proto__" props with
          | Some _ => false
          | None => true
          end
      | Replaced _ => true
      end
  end.

(** [o[k] = v] as [Object.assign] does it.  The setter of "__proto__" makes
    an object or [null] the prototype and does nothing with any other value;
    it writes no property.  Every other write is a write of an own
    property. *)
Definition put (o : object) (k : string) (v : value) : object :=
  if (k =? "__proto__") && finds_setter o then
    match v with
    | VNull => {| proto := NullPrototype; own := own o |}
    | VObj _ | VArr _ => {| proto := Replaced v; own := own o |}
    | _ => o
    end
  else {| proto := proto o; own := set k v (own o) |}.

Definition assign (o : object) (source : value) : object :=
  fold_left (fun o kv => put o (fst kv) (snd kv)) (own_props source) o.

(** The own properties after writes none of which finds a setter. *)
Definition writes (target source : list (string * value))
  : list (string * value) :=
  fold_left (fun t kv => set (fst kv) (snd kv) t) source target.

(** A property of the wrapper of the string [s] that cannot be written: its
    length and its characters (counted one a byte, as in ASCII text). *)
Definition read_only (s : string) (k : string) : bool :=
  (k =? "length")
  || match array_index k with
     | Some i => (i <? N.of_nat (String.length s))%N
     | None => false
     end.

(** [Object.assign(target, source)], as the value [target] is afterwards (its
    own properties: the prototype is not part of a value).  On [undefined] or
    [null] it throws.  A write to a number or a boolean lands on a temporary
    wrapper; so does a write to a string, which throws when it is a write of
    the length or of a character.  What is written to an array is not
    modelled: the array is taken to be the tree it was. *)
Definition Object_assign (target source : value) : outcome value :=
  match target with
  | VUndefined | VNull =>
      Throw "TypeError: Cannot convert undefined or null to object"
  | VObj props => Ok (VObj (own (assign (plain props) source)))
  | VStr s =>
      if existsb (fun kv => read_only s (fst kv)) (own_props source)
      then Throw "TypeError: Cannot assign to read only property"
      else Ok target
  | _ => Ok target
  end.

End JS.

(** ** What the server sees of the outside world *)

(** The items of the object [formatSpectralOutput] returns in index.js and in
    the draft with regions. *)
Record Issue : Type := {
  title : value;
  description : value;
  element : string
}.

Record formatted : Type := {
  warnings : list Issue;
  errors : list Issue
}.

(** What one call of the completion service is given: the YAML text and the
    issues that the prompt quotes. *)
Record request : Type := {
  yamlContent : string;
  issuesChunk : list Issue
}.

(** The response of [fetch]: [text] and [json] read the body. *)
Record response : Type := {
  ok : bool;
  status : Z;
  text : outcome string;
  json : outcome value
}.

Inductive fetched : Type :=
| Rejected (message : string)
| Responded (r : response).

(** One call of [callAiWithChunk], as a trace records it: the request and the
    string the helper returned. *)
Record call : Type := {
  sent : request;
  returned : string
}.

Record Env : Type := {
  JSON_parse : string -> outcome value;
  yaml_load : string -> outcome value;
  yaml_dump : value -> outcome string;
  fetch : list call -> request -> fetched;
  GROQ_API_KEY : option string
}.

(** [!GROQ_API_KEY] is false. *)
Definition configured (E : Env) : bool :=
  match GROQ_API_KEY E with
  | Some k => negb (k =? "")
  | None => false
  end.

(** ** formatSpectralOutput (index.js and the draft with regions) *)

Section Normalizer.
Variable E : Env.

Definition newItem (item : value) : outcome Issue :=
  code <- JS.get item "code" ;;
  message <- JS.get item "message" ;;
  path <- JS.get item "path" ;;
  joined <- JS.join path "." ;;
  Ok {| title := code; description := message; element := joined |}.

Definition is_warning (severity : value) : bool :=
  match severity with
  | VNum 1 => true
  | _ => false
  end.

Definition pushItem (acc : formatted) (item : value) : outcome formatted :=
  new <- newItem item ;;
  severity <- JS.get item "severity" ;;
  if is_warning severity
  then Ok {| warnings := warnings acc ++ [new]; errors := errors acc |}%list
  else Ok {| warnings := warnings acc; errors := errors acc ++ [new] |}%list.

Fixpoint forEach (items : list value) (acc : formatted) : outcome formatted :=
  match items with
  | [] => Ok acc
  | item :: rest => acc' <- pushItem acc item ;; forEach rest acc'
  end.

(** The [try] block. *)
Definition attempt (spectralJsonString : string) : outcome formatted :=
  results <- JSON_parse E spectralJsonString ;;
  items <- JS.iterate results ;;
  forEach items {| warnings := []; errors := [] |}.

Definition formatSpectralOutput (spectralJsonString : string) : formatted :=
  match attempt spectralJsonString with
  | Ok formatted => formatted
  | Throw _ => {| warnings := []; errors := [] |}
  end.

End Normalizer.

(** ** callAiWithChunk *)

Section Adapter.
Variable E : Env.
(** The string the [catch] clause returns; the two drafts word it differently. *)
Variable exception_message : string.

(** [result.choices?.[0]?.message?.content] *)
Definition content (result : value) : outcome value :=
  choices <- JS.get result "choices" ;;
  first <- JS.get_opt choices "0" ;;
  message <- JS.get_opt first "message" ;;
  JS.get_opt message "content".

(** The group of the first match of the regular expression that looks for a
    fenced yaml block: after the first opening fence, the text up to the first
    line break followed by three backquotes. *)
Definition yamlMatch (text : string) : option string :=
  match Str.cut ("```yaml" ++ Str.nl) text with
  | Some (_, rest) =>
      match Str.cut (Str.nl ++ "```") rest with
      | Some (inner, _) => Some inner
      | None => None
      end
  | None => None
  end.

(** The body of the [try] block, once [fetch] has settled. *)
Definition answer (f : fetched) : outcome string :=
  match f with
  | Rejected message => Throw message
  | Responded response =>
      if negb (ok response) then
        errorBody <- text response ;;
        Ok ("AI fix failed: API returned status "
              ++ JS.Z_to_string (status response) ++ ". Details: " ++ errorBody)
      else
        result <- json response ;;
        text <- content result ;;
        if negb (JS.truthy text)
        then Ok "AI fix failed: Could not extract corrected YAML from AI response."
        else match text with
             | VStr t =>
                 Ok (match yamlMatch t with
                     | Some block => block
                     | None => Str.trim t
                     end)
             | _ => Throw "TypeError: text.match is not a function"
             end
  end.

Definition callAiWithChunk (yamlContent : string) (issuesChunk : list Issue)
    (trace : list call) : string * list call :=
  let request := {| yamlContent := yamlContent; issuesChunk := issuesChunk |} in
  let result :=
    match answer (fetch E trace request) with
    | Ok s => s
    | Throw _ => exception_message
    end in
  (result, (trace ++ [{| sent := request; returned := result |}])%list).

End Adapter.

(** ** The POST /yaml/validate handler of index.js and of the draft with
       regions, for either [getAiFixes]

    [formatSpectralOutput] catches every exception itself and [getAiFixes]
    never rejects, so the handler's own [catch] clauses answer nothing. *)

Inductive body : Type :=
| Error (error : string)
| ErrorDetails (error details : string)
| Report (warnings errors : list Issue) (fixed_yaml_file : string).

Section Handler.
Variable E : Env.
Variable getAiFixes : string -> formatted -> list call -> string * list call.

(** [file] is the text of the uploaded file when there is one; [stdout] and
    [stderr] are what the spectral command wrote. *)
Definition yaml_validate (file : option string) (stdout stderr : string)
    (trace : list call) : (Z * body) * list call :=
  match file with
  | None => ((400%Z, Error "No file uploaded."), trace)
  | Some originalYamlContent =>
      if negb (stderr =? "") && (stdout =? "")
      then ((500%Z, ErrorDetails "Failed to run spectral validation." stderr), trace)
      else
        let spectralOutput := if negb (stdout =? "") then stdout else "[]" in
        let spectralJsonResponse := formatSpectralOutput E spectralOutput in
        if (List.length (errors spectralJsonResponse) =? 0)%nat
           && (List.length (warnings spectralJsonResponse) =? 0)%nat
        then ((200%Z, Report (warnings spectralJsonResponse)
                             (errors spectralJsonResponse)
                             "No issues found. Original YAML is valid."), trace)
        else
          let (fixedYaml, trace) :=
            getAiFixes originalYamlContent spectralJsonResponse trace in
          ((200%Z, Report (warnings spectralJsonResponse)
                          (errors spectralJsonResponse) fixedYaml), trace)
  end.

End Handler.

(** ** The chunks [splice(0, size)] takes off a list, turn after turn *)

Fixpoint spliced {A : Type} (size fuel : nat) (l : list A) : list (list A) :=
  match fuel with
  | O => []
  | S fuel =>
      if (0 <? List.length l)%nat
      then firstn size l :: spliced size fuel (skipn size l)
      else []
  end.

(** A call whose returned string the orchestrators take for a failure. *)
Definition failed_call (c : call) : bool :=
  Str.startsWith (returned c) "AI fix failed:".

Definition batch (c : call) : list Issue := issuesChunk (sent c).

(** ** index.js: the whole YAML text, five issues at a time *)

Module Simple.

Definition CHUNK_SIZE : nat := 5.

(** What the [catch] clause of [callAiWithChunk] returns. *)
Definition exception_message : string :=
  "AI fix failed: An exception occurred while contacting the AI service.".

Section Orchestrator.
Variable E : Env.

Definition callAiWithChunk := callAiWithChunk E exception_message.

(** The [while (allIssues.length > 0)] loop; each turn removes at least one
    issue, so [length allIssues] turns are enough. *)
Fixpoint iterations (fuel : nat) (allIssues : list Issue) (currentYaml : string)
    (trace : list call) : string * list call :=
  match fuel with
  | O => (currentYaml, trace)
  | S fuel =>
      if (0 <? List.length allIssues)%nat then
        let chunkToProcess := firstn CHUNK_SIZE allIssues in
        let allIssues := skipn CHUNK_SIZE allIssues in
        let (fixedYamlFromChunk, trace) :=
          callAiWithChunk currentYaml chunkToProcess trace in
        if Str.startsWith fixedYamlFromChunk "AI fix failed:"
        then (fixedYamlFromChunk, trace)
        else iterations fuel allIssues fixedYamlFromChunk trace
      else (currentYaml, trace)
  end.

Definition getAiFixes (initialYamlContent : string) (spectralIssues : formatted)
    (trace : list call) : string * list call :=
  if negb (configured E)
  then ("AI fix skipped: GROQ_API_KEY not configured on the server.", trace)
  else
    let allIssues := (errors spectralIssues ++ warnings spectralIssues)%list in
    iterations (List.length allIssues) allIssues initialYamlContent trace.

Definition yaml_validate := yaml_validate E getAiFixes.

End Orchestrator.

(** The chunks the loop goes through when nothing stops it. *)
Definition partition (allIssues : list Issue) : list (list Issue) :=
  spliced CHUNK_SIZE (List.length allIssues) allIssues.

End Simple.

(** ** The draft with regions: one YAML chunk per top-level key or path *)

(** How a loop body ends: it goes on, the function returns, or an exception
    leaves the loop. *)
Inductive flow (A : Type) : Type :=
| Next (a : A)
| Return (result : string)
| Raise (message : string).
Arguments Next {A} a.
Arguments Return {A} result.
Arguments Raise {A} message.

Module Regions.

Definition CHUNK_SIZE : nat := 5.

(** The key the reducer computes for an issue.  [elementParts[i]] past the end
    is [undefined], which a template literal and a property name both print
    as "undefined". *)
Definition chunkKey (issue : Issue) : string :=
  let elementParts := Str.split "." (element issue) in
  if (1 <? List.length elementParts)%nat
     && (nth 0 elementParts "undefined" =? "paths")
  then nth 0 elementParts "undefined" ++ "." ++ nth 1 elementParts "undefined"
  else nth 0 elementParts "undefined".

(** The groups with [issue] added to the group of [key], a new group when
    there is none: the keys are listed in the order of their creation. *)
Fixpoint add (key : string) (issue : Issue) (acc : list (string * list Issue))
  : list (string * list Issue) :=
  match acc with
  | [] => [(key, [issue])]
  | (k, group) :: rest =>
      if k =? key then (k, (group ++ [issue])%list) :: rest
      else (k, group) :: add key issue rest
  end.

Fixpoint group_of (key : string) (acc : list (string * list Issue))
  : option (list Issue) :=
  match acc with
  | [] => None
  | (k, group) :: rest => if k =? key then Some group else group_of key rest
  end.

(** [if (!acc[key]) acc[key] = []; acc[key].push(issue)] on the accumulator,
    which starts as [{}].  Where the accumulator has no group of its own for
    the key, [acc[key]] is the member of that name it inherits from
    Object.prototype, if there is one: the member is truthy, so no group is
    created, and it has no [push] method, so the call throws. *)
Definition push (key : string) (issue : Issue) (acc : list (string * list Issue))
  : outcome (list (string * list Issue)) :=
  match group_of key acc with
  | Some _ => Ok (add key issue acc)
  | None =>
      if JS.inherited key
      then Throw "TypeError: acc[key].push is not a function"
      else Ok (add key issue acc)
  end.

(** [allIssues.reduce(..., acc)] *)
Fixpoint reduce (allIssues : list Issue) (acc : list (string * list Issue))
  : outcome (list (string * list Issue)) :=
  match allIssues with
  | [] => Ok acc
  | issue :: rest => acc' <- push (chunkKey issue) issue acc ;; reduce rest acc'
  end.

Definition errorsByChunkKey (allIssues : list Issue)
  : outcome (list (string * list Issue)) :=
  reduce allIssues [].

(** The groups the reducer makes when it does not throw. *)
Definition groups (allIssues : list Issue) : list (string * list Issue) :=
  fold_left (fun acc issue => add (chunkKey issue) issue acc) allIssues [].

(** The part of the YAML object sent for [key]. *)
Definition yamlChunk (mainYamlObject : value) (key : string) : outcome value :=
  let objectPathParts := Str.split "." key in
  if (1 <? List.length objectPathParts)%nat then
    let entry := nth 1 objectPathParts "undefined" in
    paths <- JS.get mainYamlObject "paths" ;;
    v <- JS.get paths entry ;;
    Ok (VObj [(entry, v)])
  else
    v <- JS.get mainYamlObject key ;;
    Ok (VObj [(key, v)]).

(** [mainYamlObject] after the object at its property [k] has been changed in
    place to [v]. *)
Definition changed (mainYamlObject : value) (k : string) (v : value) : value :=
  match mainYamlObject with
  | VObj props => VObj (JS.set k v props)
  | _ => mainYamlObject
  end.

(** The merge of the fixed chunk into the main object: the object after it. *)
Definition merge (mainYamlObject : value) (key : string)
    (fixedChunkObject : value) : outcome value :=
  let objectPathParts := Str.split "." key in
  if (1 <? List.length objectPathParts)%nat then
    paths <- JS.get mainYamlObject "paths" ;;
    paths' <- JS.Object_assign paths fixedChunkObject ;;
    Ok (changed mainYamlObject "paths" paths')
  else
    JS.Object_assign mainYamlObject fixedChunkObject.

(** What the [catch] clause of [callAiWithChunk] returns. *)
Definition exception_message : string := "AI fix failed: An exception occurred.".

Section Orchestrator.
Variable E : Env.

Definition callAiWithChunk := callAiWithChunk E exception_message.

(** The [while (issuesForChunk.length > 0)] loop of one key. *)
Fixpoint chunks (fuel : nat) (key : string) (issuesForChunk : list Issue)
    (yamlChunkObject mainYamlObject : value) (trace : list call)
  : flow value * list call :=
  match fuel with
  | O => (Next mainYamlObject, trace)
  | S fuel =>
      if (0 <? List.length issuesForChunk)%nat then
        let errorChunk := firstn CHUNK_SIZE issuesForChunk in
        let issuesForChunk := skipn CHUNK_SIZE issuesForChunk in
        match yaml_dump E yamlChunkObject with
        | Throw e => (Raise e, trace)
        | Ok yamlChunkString =>
            let (fixedChunkString, trace) :=
              callAiWithChunk yamlChunkString errorChunk trace in
            if Str.startsWith fixedChunkString "AI fix failed:"
            then (Return fixedChunkString, trace)
            else
              let merged :=
                fixedChunkObject <- yaml_load E fixedChunkString ;;
                main <- merge mainYamlObject key fixedChunkObject ;;
                Ok (fixedChunkObject, main) in
              match merged with
              | Ok (fixedChunkObject, main) =>
                  chunks fuel key issuesForChunk fixedChunkObject main trace
              | Throw _ =>
                  (Return "AI fix failed: Could not parse YAML response from AI.",
                   trace)
              end
        end
      else (Next mainYamlObject, trace)
  end.

(** The [for (const key in errorsByChunkKey)] loop. *)
Fixpoint regions (groups : list (string * list Issue)) (mainYamlObject : value)
    (trace : list call) : flow value * list call :=
  match groups with
  | [] => (Next mainYamlObject, trace)
  | (key, issuesForChunk) :: rest =>
      match yamlChunk mainYamlObject key with
      | Throw e => (Raise e, trace)
      | Ok yamlChunkObject =>
          match chunks (List.length issuesForChunk) key issuesForChunk
                       yamlChunkObject mainYamlObject trace with
          | (Next main, trace) => regions rest main trace
          | stop => stop
          end
      end
  end.

Definition critical : string :=
  "AI fix failed: A critical error occurred while processing the YAML.".

Definition getAiFixes (initialYamlContent : string) (spectralIssues : formatted)
    (trace : list call) : string * list call :=
  if negb (configured E)
  then ("AI fix skipped: GROQ_API_KEY not configured.", trace)
  else
    match yaml_load E initialYamlContent with
    | Throw _ => (critical, trace)
    | Ok mainYamlObject =>
        let allIssues := (errors spectralIssues ++ warnings spectralIssues)%list in
        match errorsByChunkKey allIssues with
        | Throw _ => (critical, trace)
        | Ok errorsByChunkKey =>
            match regions (JS.ordered errorsByChunkKey) mainYamlObject trace with
            | (Next main, trace) =>
                match yaml_dump E main with
                | Ok s => (s, trace)
                | Throw _ => (critical, trace)
                end
            | (Return result, trace) => (result, trace)
            | (Raise _, trace) => (critical, trace)
            end
        end
    end.

Definition yaml_validate := yaml_validate E getAiFixes.

End Orchestrator.

(** The chunks the inner loop takes off the groups, group after group. *)
Definition plan (groups : list (string * list Issue)) : list (list Issue) :=
  flat_map
    (fun group => spliced CHUNK_SIZE (List.length (snd group)) (snd group))
    groups.

(** The (key, chunk) pairs the two loops go through when nothing stops them,
    the reducer having made its groups. *)
Definition partition (allIssues : list Issue) : list (string * list Issue) :=
  flat_map
    (fun group =>
       map (pair (fst group))
           (spliced CHUNK_SIZE (List.length (snd group)) (snd group)))
    (JS.ordered (groups allIssues)).

(** A key resolves in a document when the property [yamlChunk] reads is an own
    property of the object it reads it from. *)
Definition resolves (mainYamlObject : value) (key : string) : bool :=
  let objectPathParts := Str.split "." key in
  match mainYamlObject with
  | VObj props =>
      if (1 <? List.length objectPathParts)%nat then
        match JS.lookup "paths" props with
        | Some (VObj entries) =>
            match JS.lookup (nth 1 objectPathParts "undefined") entries with
            | Some _ => true
            | None => false
            end
        | _ => false
        end
      else
        match JS.lookup key props with
        | Some _ => true
        | None => false
        end
  | _ => false
  end.

End Regions.

(** ** The draft with a summary and severity labels *)

Module Detailed.

Record location : Type := {
  line : value;
  character : value
}.

Record issue : Type := {
  severity : string;
  rule : value;
  message : value;
  path : string;
  loc : location
}.

(** The object the helper returns: [message] and [rawError] are set by the
    [catch] clause only, the counters by the [try] block only. *)
Record formatted : Type := {
  status : string;
  errorCount : nat;
  warningCount : nat;
  totalIssues : value;
  summary_message : option string;
  issues : list issue;
  rawError : option string
}.

Definition severityMap : list (string * string) :=
  [("0", "error"); ("1", "warn"); ("2", "info"); ("3", "hint")].

Fixpoint entry (k : string) (map : list (string * string)) : option string :=
  match map with
  | [] => None
  | (k', label) :: rest => if k' =? k then Some label else entry k rest
  end.

(** [severityMap[item.severity] || 'unknown']: the property name is the code
    printed as a string; every label of the table is truthy. *)
Definition severityLabel (code : value) : string :=
  match entry (JS.toString code) severityMap with
  | Some label => label
  | None => "unknown"
  end.

(** [v + 1] *)
Definition plus_one (v : value) : value :=
  match v with
  | VNum n => VNum (n + 1)
  | VNull => VNum 1
  | VBool b => VNum (if b then 2 else 1)
  | VUndefined | VNaN => VNaN
  | VStr _ | VArr _ | VObj _ => VStr (JS.toString v ++ "1")
  end.

(** ToNumber of a line number, [None] for NaN.  A string counts when it is a
    decimal numeral; the other numeric literals are read as NaN. *)
Definition toNumber (v : value) : option Z :=
  match v with
  | VNum n => Some n
  | VStr s => option_map Z.of_uint (NilEmpty.uint_of_string s)
  | _ => None
  end.

(** The comparator [(a, b) => a.location.line - b.location.line] is at most
    zero; a NaN difference counts as zero. *)
Definition keeps_order (a b : issue) : bool :=
  match toNumber (line (loc a)), toNumber (line (loc b)) with
  | Some x, Some y => (x - y <=? 0)%Z
  | _, _ => true
  end.

Fixpoint insert (x : issue) (sorted : list issue) : list issue :=
  match sorted with
  | [] => [x]
  | y :: rest => if keeps_order x y then x :: sorted else y :: insert x rest
  end.

(** [Array.prototype.sort] is stable. *)
Definition sort (l : list issue) : list issue := fold_right insert [] l.

Section Normalizer.
Variable E : Env.

Definition formatItem (item : value) : outcome issue :=
  code <- JS.get item "severity" ;;
  let severity := severityLabel code in
  rule <- JS.get item "code" ;;
  message <- JS.get item "message" ;;
  path <- JS.get item "path" ;;
  joined <- JS.join path "." ;;
  range <- JS.get item "range" ;;
  start <- JS.get range "start" ;;
  line <- JS.get start "line" ;;
  start' <- JS.get range "start" ;;
  character <- JS.get start' "character" ;;
  Ok {| severity := severity; rule := rule; message := message; path := joined;
        loc := {| line := plus_one line; character := plus_one character |} |}.

Definition count (f : formatted) (new : issue) : formatted :=
  {| status := status f;
     errorCount :=
       if severity new =? "error" then S (errorCount f) else errorCount f;
     warningCount :=
       if severity new =? "error" then warningCount f
       else if severity new =? "warn" then S (warningCount f)
       else warningCount f;
     totalIssues := totalIssues f;
     summary_message := summary_message f;
     issues := (issues f ++ [new])%list;
     rawError := rawError f |}.

Fixpoint forEach (items : list value) (f : formatted) : outcome formatted :=
  match items with
  | [] => Ok f
  | item :: rest => new <- formatItem item ;; forEach rest (count f new)
  end.

Definition initial : formatted :=
  {| status := "valid"; errorCount := 0; warningCount := 0;
     totalIssues := VNum 0; summary_message := None; issues := [];
     rawError := None |}.

Definition finish (f : formatted) (total : value) : formatted :=
  {| status :=
       if (0 <? errorCount f)%nat then "invalid"
       else if (0 <? warningCount f)%nat then "valid_with_warnings"
       else status f;
     errorCount := errorCount f;
     warningCount := warningCount f;
     totalIssues := total;
     summary_message := summary_message f;
     issues := sort (issues f);
     rawError := rawError f |}.

Definition failed (e : string) : formatted :=
  {| status := "error"; errorCount := 0; warningCount := 0;
     totalIssues := VUndefined;
     summary_message := Some "Failed to parse Spectral output.";
     issues := []; rawError := Some e |}.

(** The [try] block. *)
Definition attempt (spectralJsonString : string) : outcome formatted :=
  results <- JSON_parse E spectralJsonString ;;
  items <- JS.iterate results ;;
  f <- forEach items initial ;;
  total <- JS.get results "length" ;;
  Ok (finish f total).

Definition formatSpectralOutput (spectralJsonString : string) : formatted :=
  match attempt spectralJsonString with
  | Ok f => f
  | Throw e => failed e
  end.

Inductive body : Type :=
| Error (error : string)
| ErrorDetails (error : string) (details : option string)
| Message (message : string)
| Report (f : formatted).

(** The POST /yaml/validate handler of this draft. *)
Definition yaml_validate (file : option string) (stdout stderr : string)
  : Z * body :=
  match file with
  | None => (400%Z, Error "No file uploaded.")
  | Some _ =>
      if negb (stderr =? "") && (stdout =? "")
      then (500%Z, ErrorDetails "Failed to run spectral validation." (Some stderr))
      else
        let spectralOutput := if negb (stdout =? "") then Str.trim stdout else "" in
        if (spectralOutput =? "") || (spectralOutput =? "[]")
        then (200%Z, Message "✅ YAML is valid!")
        else
          let spectralJsonResponse := formatSpectralOutput spectralOutput in
          if status spectralJsonResponse =? "error"
          then (500%Z, ErrorDetails
                         match summary_message spectralJsonResponse with
                         | Some m => m
                         | None => "undefined"
                         end
                         (rawError spectralJsonResponse))
          else if status spectralJsonResponse =? "invalid"
          then (422%Z, Report spectralJsonResponse)
          else (200%Z, Report spectralJsonResponse)
  end.

End Normalizer.
End Detailed.

(** ** Properties of traces and of merges *)

(** A call after which the loop of the draft with regions goes on: the string
    is not a failure and loads as YAML. *)
Definition clean (E : Env) (c : call) : Prop :=
  failed_call c = false /\ exists v, yaml_load E (returned c) = Ok v.

(** How a run of the loops ends, and the calls it made. *)
Inductive ends (E : Env) : flow value -> list call -> Prop :=
| ends_next main new :
    Forall (clean E) new -> ends E (Next main) new
| ends_raise e new :
    Forall (clean E) new -> ends E (Raise e) new
| ends_failed good c :
    Forall (clean E) good -> failed_call c = true ->
    ends E (Return (returned c)) (good ++ [c])%list
| ends_unparsable good c :
    Forall (clean E) good -> failed_call c = false ->
    ends E (Return "AI fix failed: Could not parse YAML response from AI.")
         (good ++ [c])%list.

(** What [callAiWithChunk] returns once [fetch] has settled with [f]. *)
Definition settled (exception_message : string) (f : fetched) : string :=
  match answer f with
  | Ok s => s
  | Throw _ => exception_message
  end.

(** The service did not deliver a completion: the request was rejected, the
    status is not a success, the body is not JSON, or the first choice has no
    text in it. *)
Definition undelivered (f : fetched) : bool :=
  match f with
  | Rejected _ => true
  | Responded r =>
      if negb (ok r) then true
      else match json r with
           | Throw _ => true
           | Ok result =>
               match content result with
               | Ok (VStr t) => t =? ""
               | _ => true
               end
           end
  end.

(** A trace in which every call is a call of the helper, made after the
    calls before it. *)
Inductive recorded (E : Env) (exception_message : string) : list call -> Prop :=
| recorded_nil : recorded E exception_message []
| recorded_snoc trace c :
    recorded E exception_message trace ->
    returned c = settled exception_message (fetch E trace (sent c)) ->
    recorded E exception_message (trace ++ [c])%list.

Definition keys (props : list (string * value)) : list string := map fst props.

(** [new] is [old] with exactly the properties of [fixed] written over it:
    a property of [fixed] has the value [fixed] gives it (the last one, should
    a name occur twice), any other property is as in [old], the properties of
    [old] keep their places and every new name comes from [fixed]. *)
Definition overwritten (old new fixed : list (string * value)) : Prop :=
  (forall k,
      JS.lookup k new =
      match JS.lookup k (rev fixed) with
      | Some v => Some v
      | None => JS.lookup k old
      end)
  /\ exists extra,
      keys new = (keys old ++ extra)%list
      /\ forall k, In k extra -> In k (keys fixed) /\ ~ In k (keys old).

(** No write of the properties [source] on an object whose own properties are
    [target] finds the setter of "__proto__": [source] has no property of
    that name, or [target] has one of its own. *)
Definition setter_free (target source : list (string * value)) : Prop :=
  In "__proto__" (keys source) -> In "__proto__" (keys target).

(** The properties [Object.assign] writes as properties on an object that has
    no "__proto__" of its own. *)
Definition fields (source : list (string * value)) : list (string * value) :=
  filter (fun kv => negb (fst kv =? "__proto__")) source.

(** [x] occurs in the tree [v]: at its root, or in one of its elements or of
    the values of its properties.  A part of a document in which the value of
    a mapping does not occur holds no alias of that mapping. *)
Fixpoint within (x v : value) {struct v} : Prop :=
  x = v
  \/ match v with
     | VArr items =>
         (fix any (l : list value) : Prop :=
            match l with
            | [] => False
            | y :: r => within x y \/ any r
            end) items
     | VObj props =>
         (fix any (l : list (string * value)) : Prop :=
            match l with
            | [] => False
            | (_, y) :: r => within x y \/ any r
            end) props
     | _ => False
     end.

(** ** A small document, two issues and three completion services *)

Module Sample.

Definition lines (l : list string) : string := String.concat Str.nl l.

Definition document : string :=
  lines ["openapi: 3.0.0";
         "info:";
         "  title: Demo";
         "paths:";
         "  /users:";
         "    summary: Users";
         "  /orders:";
         "    summary: Orders";
         ""].

Definition users : value := VObj [("summary", VStr "Users")].
Definition orders : value := VObj [("summary", VStr "Orders")].
Definition info : value := VObj [("title", VStr "Demo")].

Definition tree : value :=
  VObj [("openapi", VStr "3.0.0");
        ("info", info);
        ("paths", VObj [("/users", users); ("/orders", orders)])].

(** yaml.load on the texts of this sample. *)
Definition load (s : string) : outcome value :=
  if s =? document then Ok tree
  else if s =? lines ["/users:"; "  summary: Users"] then Ok (VObj [("/users", users)])
  else if s =? lines ["info:"; "  title: Demo"] then Ok (VObj [("info", info)])
  else Throw "YAMLException".

(** yaml.dump on block mappings of plain strings. *)
Fixpoint dump_at (indent : string) (v : value) : outcome string :=
  match v with
  | VObj props =>
      (fix go (l : list (string * value)) : outcome string :=
         match l with
         | [] => Ok ""
         | (k, x) :: r =>
             rest <- go r ;;
             match x with
             | VStr s => Ok (indent ++ k ++ ": " ++ s ++ Str.nl ++ rest)
             | VObj (_ :: _) =>
                 inner <- dump_at ("  " ++ indent) x ;;
                 Ok (indent ++ k ++ ":" ++ Str.nl ++ inner ++ rest)
             | _ => Throw "YAMLException"
             end
         end) props
  | _ => Throw "YAMLException"
  end.

Definition dump (v : value) : outcome string :=
  match v with
  | VObj [] => Ok ("{}" ++ Str.nl)
  | _ => dump_at "" v
  end.

(** JSON.parse on the two texts of this sample. *)
Definition parse (s : string) : outcome value :=
  if s =? "[]" then Ok (VArr [])
  else if s =? "{}" then Ok (VObj [])
  else Throw "SyntaxError: Unexpected token".

(** A 200 response whose first choice has the content [t]. *)
Definition completion (t : string) : fetched :=
  Responded
    {| ok := true; status := 200; text := Throw "body used already";
       json := Ok (VObj [("choices",
                          VArr [VObj [("message",
                                       VObj [("role", VStr "assistant");
                                             ("content", VStr t)])]])]) |}.

(** The service that sends the YAML it was given back in a fenced block. *)
Definition echo (r : request) : fetched :=
  completion ("```yaml" ++ Str.nl ++ yamlContent r ++ "```").

(** The service that answers 503 to its call number [n] and echoes before. *)
Definition overloaded_at (n : nat) (trace : list call) (r : request) : fetched :=
  if (List.length trace =? n)%nat
  then Responded {| ok := false; status := 503; text := Ok "overloaded";
                    json := Throw "SyntaxError: Unexpected token" |}
  else echo r.


Definition env (service : list call -> request -> fetched) : Env :=
  {| JSON_parse := parse; yaml_load := load; yaml_dump := dump;
     fetch := service; GROQ_API_KEY := Some "gsk_test" |}.

Definition users_error : Issue :=
  {| title := VStr "operation-description";
     description := VStr "Operation must have a description.";
     element := "paths./users" |}.

Definition info_warning : Issue :=
  {| title := VStr "info-contact";
     description := VStr "Info object must have a contact object.";
     element := "info" |}.

Definition issues : formatted :=
  {| warnings := [info_warning]; errors := [users_error] |}.

(** Seven errors on one path. *)
Definition seven : formatted :=
  {| warnings := []; errors := repeat users_error 7 |}.


(** A raw issue as spectral reports it. *)
Definition raw_warning : value :=
  VObj [("code", VStr "info-contact");
        ("path", VArr [VStr "info"]);
        ("message", VStr "Info object must have a contact object.");
        ("severity", VNum 1);
        ("range", VObj [("start", VObj [("line", VNum 1); ("character", VNum 5)]);
                        ("end", VObj [("line", VNum 3); ("character", VNum 16)])])].

End Sample.

(** ** Words for the further properties *)

(** [pat] occurs in [s]. *)
Definition occurs (pat s : string) : Prop :=
  exists before after, s = before ++ pat ++ after.

(** The opening and the closing fence of a yaml block. *)
Definition opening : string := "```yaml" ++ Str.nl.
Definition closing : string := Str.nl ++ "```".

(** A string made of white space only. *)
Fixpoint blank (s : string) : bool :=
  match s with
  | EmptyString => true
  | String c r => Str.is_space c && blank r
  end.



(** The line of an issue of the draft with a summary, as the comparator of
    the sort reads it. *)
Definition line_of (i : Detailed.issue) : option Z :=
  Detailed.toNumber (Detailed.line (Detailed.loc i)).

(** How many issues have the label [label]. *)
Definition labelled (label : string) (l : list Detailed.issue) : nat :=
  List.length (filter (fun i => Detailed.severity i =? label) l).


(** Calls of which each is given the string the one before returned, the
    first being given [yaml]. *)
Fixpoint chained (yaml : string) (calls : list call) : Prop :=
  match calls with
  | [] => True
  | c :: rest => yamlContent (sent c) = yaml /\ chained (returned c) rest
  end.

(** Calls of which the first is given the dump of [chunk] and each other one
    the dump of the object the answer before it loads to. *)
Fixpoint redumped (E : Env) (chunk : value) (calls : list call) : Prop :=
  match calls with
  | [] => True
  | c :: rest =>
      yaml_dump E chunk = Ok (yamlContent (sent c))
      /\ match rest with
         | [] => True
         | _ :: _ =>
             exists fixed,
               yaml_load E (returned c) = Ok fixed /\ redumped E fixed rest
         end
  end.

(** The world of the sample in which the report of spectral parses to the
    array of [items], whatever its text. *)
Definition reporting (items : list value) : Env :=
  {| JSON_parse := fun _ => Ok (VArr items);
     yaml_load := Sample.load; yaml_dump := Sample.dump;
     fetch := fun _ => Sample.echo; GROQ_API_KEY := Some "gsk_test" |}.

(** Two issues of which the first has the smaller line, or the same. *)
Definition line_le (a b : Detailed.issue) : Prop :=
  match line_of a, line_of b with
  | Some x, Some y => (x <= y)%Z
  | _, _ => False
  end.

(** The issue is on line [n]. *)
Definition on_line (n : Z) (i : Detailed.issue) : bool :=
  match line_of i with
  | Some x => (x =? n)%Z
  | None => false
  end.

(** A raw error on the first line of the document. *)
Definition raw_error : value :=
  VObj [("code", VStr "oas3-api-servers");
        ("path", VArr []);
        ("message", VStr "OpenAPI servers must be present and non-empty array.");
        ("severity", VNum 0);
        ("range", VObj [("start", VObj [("line", VNum 0); ("character", VNum 0)]);
                        ("end", VObj [("line", VNum 8); ("character", VNum 21)])])].

(** A raw error on an operation of a path whose name has a dot in it. *)
Definition versioned : value :=
  VObj [("code", VStr "operation-description");
        ("message", VStr "Operation must have a description.");
        ("path", VArr [VStr "paths"; VStr "/v1.0/users"; VStr "get"]);
        ("severity", VNum 0)].

(** The sample with the empty document added to it: js-yaml loads a text
    without a document as [undefined]. *)
Definition loading_nothing : Env :=
  {| JSON_parse := Sample.parse;
     yaml_load := fun s => if s =? "" then Ok VUndefined else Sample.load s;
     yaml_dump := Sample.dump;
     fetch := fun _ => Sample.echo;
     GROQ_API_KEY := Some "gsk_test" |}.

(** The keys of a list in the order in which each one comes first. *)
Definition first_seen (l : list string) : list string :=
  rev (nodup string_dec (rev l)).

(** A report between a no-break space and a line break. *)
Definition nbsp_report : string :=
  String (ascii_of_nat 194) (String (ascii_of_nat 160) "[...]") ++ Str.nl.


(** An error on a top-level key of the document that is called as a member
    of Object.prototype is, next to an error on a path. *)
Definition constructor_error : Issue :=
  {| title := VStr "oas3-schema";
     description := VStr "Property constructor is not expected to be here.";
     element := "constructor" |}.

Definition inheriting : formatted :=
  {| warnings := []; errors := [Sample.users_error; constructor_error] |}.

(** * Properties *)

(** ** Strings *)

Section StringFacts.


Lemma split_without (sep : ascii) (s : string) :
  Str.has sep s = false -> Str.split sep s = [s].
Proof.
  induction s as [|c r IH]; simpl; intros H; [reflexivity|].
  apply orb_false_iff in H as [Hc Hr].
  rewrite Hc, (IH Hr). reflexivity.
Qed.

Lemma split_append (sep : ascii) (a b : string) :
  Str.has sep a = false ->
  Str.split sep (a ++ String sep b) = a :: Str.split sep b.
Proof.
  induction a as [|c r IH]; simpl; intros H.
  - rewrite Ascii.eqb_refl. reflexivity.
  - apply orb_false_iff in H as [Hc Hr].
    rewrite Hc, (IH Hr). reflexivity.
Qed.

Lemma split_join (l : list value) :
  l <> [] ->
  Forall (fun x => Str.has "." (JS.segment x) = false) l ->
  Str.split "." (JS.array_join "." l) = map JS.segment l.
Proof.
  induction l as [|x r IH]; intros Hne Hall; [congruence|].
  inversion Hall as [|? ? Hx Hr]; subst.
  destruct r as [|y r'].
  - simpl. now apply split_without.
  - change (JS.array_join "." (x :: y :: r'))
      with (JS.segment x ++ String "." (JS.array_join "." (y :: r'))).
    rewrite split_append by assumption.
    rewrite IH by (assumption || discriminate). reflexivity.
Qed.


End StringFacts.

(** ** The region key of an issue *)

Lemma newItem_element (item : value) (path : list value) (new : Issue) :
  JS.get item "path" = Ok (VArr path) ->
  newItem item = Ok new ->
  element new = JS.array_join "." path.
Proof.
  unfold newItem. intros Hpath.
  destruct (JS.get item "code") as [c|]; simpl; [|discriminate].
  destruct (JS.get item "message") as [m|]; simpl; [|discriminate].
  rewrite Hpath. simpl. intros H. injection H as <-. reflexivity.
Qed.

Lemma chunkKey_of_parts (new : Issue) (parts : list string) :
  Str.split "." (element new) = parts ->
  Regions.chunkKey new =
    match parts with
    | [] => "undefined"
    | [first] => first
    | first :: second :: _ =>
        if first =? "paths" then first ++ "." ++ second else first
    end.
Proof.
  unfold Regions.chunkKey. intros ->.
  destruct parts as [|a [|b r]]; reflexivity.
Qed.

(** ** The severity table *)

(** index.js has no labels: an item whose severity is the number 1 goes to
    the warnings, any other item to the errors. *)
Lemma pushItem_severity (acc : formatted) (item : value) (severity : value)
    (new : Issue) :
  JS.get item "severity" = Ok severity ->
  newItem item = Ok new ->
  pushItem acc item =
    Ok (if is_warning severity
        then {| warnings := (warnings acc ++ [new])%list; errors := errors acc |}
        else {| warnings := warnings acc; errors := (errors acc ++ [new])%list |}).
Proof.
  intros Hsev Hnew. unfold pushItem. rewrite Hnew, Hsev. simpl.
  now destruct (is_warning severity).
Qed.




(** ** Property writes and Object.assign *)

Section ObjectFacts.

Lemma set_same k v props :
  JS.lookup k props = Some v -> JS.set k v props = props.
Proof.
  induction props as [|[k' v'] r IH]; simpl; [discriminate|].
  destruct (String.eqb_spec k' k) as [->|Hne].
  - intros H. injection H as ->. reflexivity.
  - intros H. now rewrite IH.
Qed.

Lemma set_set k v w props :
  JS.set k v (JS.set k w props) = JS.set k v props.
Proof.
  induction props as [|[k' v'] r IH]; simpl.
  - now rewrite String.eqb_refl.
  - destruct (String.eqb_spec k' k) as [->|Hne]; simpl.
    + now rewrite String.eqb_refl.
    + apply String.eqb_neq in Hne. now rewrite Hne, IH.
Qed.

Lemma keys_set_present k v props :
  In k (keys props) -> keys (JS.set k v props) = keys props.
Proof.
  unfold keys. induction props as [|[k' v'] r IH]; simpl; [tauto|].
  destruct (String.eqb_spec k' k) as [->|Hne]; simpl; [reflexivity|].
  intros [H|H]; [congruence|]. now rewrite IH.
Qed.

Lemma keys_set_absent k v props :
  ~ In k (keys props) -> keys (JS.set k v props) = (keys props ++ [k])%list.
Proof.
  unfold keys. induction props as [|[k' v'] r IH]; simpl; [reflexivity|].
  intros H. destruct (String.eqb_spec k' k) as [->|Hne]; [tauto|].
  simpl. rewrite IH by tauto. reflexivity.
Qed.

Lemma in_keys_set k v k' props :
  In k' (keys (JS.set k v props)) <-> k' = k \/ In k' (keys props).
Proof.
  unfold keys. induction props as [|[k0 v0] r IH]; simpl.
  - intuition congruence.
  - destruct (String.eqb_spec k0 k) as [->|Hne]; simpl.
    + intuition congruence.
    + rewrite IH. tauto.
Qed.

Lemma set_swap k v k' v' props :
  k <> k' -> In k (keys props) ->
  JS.set k v (JS.set k' v' props) = JS.set k' v' (JS.set k v props).
Proof.
  intros Hne. unfold keys.
  induction props as [|[k0 v0] r IH]; simpl; [tauto|].
  intros Hin.
  destruct (string_dec k0 k') as [E1|E1]; destruct (string_dec k0 k) as [E2|E2].
  - congruence.
  - subst k0. rewrite String.eqb_refl.
    assert (Hk : (k' =? k) = false) by now apply String.eqb_neq.
    rewrite Hk. simpl. rewrite Hk, String.eqb_refl. reflexivity.
  - subst k0. rewrite String.eqb_refl.
    assert (Hk : (k =? k') = false) by now apply String.eqb_neq.
    rewrite Hk. simpl. rewrite Hk, String.eqb_refl. reflexivity.
  - assert (Hk : (k0 =? k) = false) by now apply String.eqb_neq.
    assert (Hk' : (k0 =? k') = false) by now apply String.eqb_neq.
    rewrite Hk, Hk'. simpl. rewrite Hk, Hk'.
    destruct Hin as [Hin|Hin]; [congruence|].
    now rewrite IH.
Qed.

Lemma lookup_set_same k v props : JS.lookup k (JS.set k v props) = Some v.
Proof.
  induction props as [|[k' v'] r IH]; simpl.
  - now rewrite String.eqb_refl.
  - destruct (String.eqb_spec k' k) as [->|Hne]; simpl.
    + now rewrite String.eqb_refl.
    + apply String.eqb_neq in Hne. now rewrite Hne.
Qed.

Lemma lookup_set_other k v k' props :
  k <> k' -> JS.lookup k' (JS.set k v props) = JS.lookup k' props.
Proof.
  intros Hne. induction props as [|[k0 v0] r IH]; simpl.
  - apply String.eqb_neq in Hne. now rewrite Hne.
  - destruct (String.eqb_spec k0 k) as [->|H0]; simpl.
    + apply String.eqb_neq in Hne. now rewrite Hne.
    + now rewrite IH.
Qed.

Lemma lookup_in_keys k props :
  In k (keys props) <-> exists v, JS.lookup k props = Some v.
Proof.
  unfold keys. induction props as [|[k' v'] r IH]; simpl.
  - split; [tauto|]. intros [v H]. discriminate.
  - destruct (String.eqb_spec k' k) as [->|Hne].
    + split; eauto.
    + rewrite <- IH. intuition congruence.
Qed.

Lemma lookup_app k a b :
  JS.lookup k (a ++ b)%list =
    match JS.lookup k a with
    | Some v => Some v
    | None => JS.lookup k b
    end.
Proof.
  induction a as [|[k' v'] r IH]; simpl; [reflexivity|].
  now destruct (k' =? k).
Qed.

Lemma writes_cons target k v source :
  JS.writes target ((k, v) :: source) =
    JS.writes (JS.set k v target) source.
Proof. reflexivity. Qed.

Lemma keys_assign_incl target source k :
  In k (keys target) -> In k (keys (JS.writes target source)).
Proof.
  revert target. induction source as [|[k' v'] r IH]; intros target H.
  - exact H.
  - rewrite writes_cons. apply IH, in_keys_set. now right.
Qed.

(** Writing a property that is there and that the source writes again later
    changes nothing in the end. *)
Lemma assign_after_set k v target source :
  In k (keys target) -> In k (keys source) ->
  JS.writes (JS.set k v target) source = JS.writes target source.
Proof.
  revert target. induction source as [|[k' v'] r IH]; intros target Ht Hs.
  - destruct Hs.
  - rewrite !writes_cons.
    destruct (string_dec k' k) as [->|Hne].
    + now rewrite set_set.
    + rewrite <- set_swap by (assumption || congruence).
      apply IH.
      * apply in_keys_set. now right.
      * destruct Hs as [Hs|Hs]; [simpl in Hs; congruence|exact Hs].
Qed.

Lemma lookup_assign k target source :
  JS.lookup k (JS.writes target source) =
    match JS.lookup k (rev source) with
    | Some v => Some v
    | None => JS.lookup k target
    end.
Proof.
  revert target. induction source as [|[k' v'] r IH]; intros target.
  - reflexivity.
  - rewrite writes_cons, IH. simpl rev. rewrite lookup_app.
    destruct (JS.lookup k (rev r)); [reflexivity|]. simpl.
    destruct (String.eqb_spec k' k) as [->|Hne].
    + apply lookup_set_same.
    + now apply lookup_set_other.
Qed.

Lemma writes_idempotent target source :
  JS.writes (JS.writes target source) source =
  JS.writes target source.
Proof.
  revert target. induction source as [|[k v] r IH]; intros target.
  - reflexivity.
  - rewrite !writes_cons.
    destruct (in_dec string_dec k (keys r)) as [Hin|Hnin].
    + rewrite assign_after_set; [apply IH| |exact Hin].
      apply keys_assign_incl, in_keys_set. now left.
    + rewrite set_same; [apply IH|].
      rewrite lookup_assign.
      assert (Hrev : JS.lookup k (rev r) = None).
      { destruct (JS.lookup k (rev r)) eqn:Hl; [|reflexivity].
        exfalso. apply Hnin.
        assert (Hk : In k (keys (rev r))) by (apply lookup_in_keys; eauto).
        unfold keys in *. rewrite map_rev in Hk. now apply in_rev. }
      rewrite Hrev. apply lookup_set_same.
Qed.

Lemma keys_assign target source :
  exists extra,
    keys (JS.writes target source) = (keys target ++ extra)%list
    /\ forall k, In k extra -> In k (keys source) /\ ~ In k (keys target).
Proof.
  revert target. induction source as [|[k v] r IH]; intros target.
  - exists []. split; [now rewrite app_nil_r|]. intros k [].
  - rewrite writes_cons.
    destruct (IH (JS.set k v target)) as (extra & Hk & Hex).
    destruct (in_dec string_dec k (keys target)) as [Hin|Hnin].
    + exists extra. rewrite Hk, keys_set_present by assumption.
      split; [reflexivity|]. intros k' Hk'.
      destruct (Hex k' Hk') as [H1 H2]. split; [now right|].
      intros H. apply H2, in_keys_set. now right.
    + exists (k :: extra). rewrite Hk, keys_set_absent by assumption.
      rewrite <- app_assoc. split; [reflexivity|].
      intros k' [<-|Hk']; [split; [now left|assumption]|].
      destruct (Hex k' Hk') as [H1 H2]. split; [now right|].
      intros H. apply H2, in_keys_set. now right.
Qed.

Lemma ordered_singleton {A : Type} (k : string) (v : A) :
  JS.ordered [(k, v)] = [(k, v)].
Proof.
  unfold JS.ordered. simpl. now destruct (JS.array_index k).
Qed.

Lemma place_permutation {A : Type} (n : N) (kv : string * A) sorted :
  Permutation (JS.place n kv sorted) (kv :: sorted).
Proof.
  induction sorted as [|kv' r IH]; simpl; [reflexivity|].
  destruct (JS.array_index (fst kv')) as [m|]; [|reflexivity].
  destruct (n <? m)%N; [reflexivity|].
  rewrite IH. apply perm_swap.
Qed.

Lemma ordered_permutation {A : Type} (props : list (string * A)) :
  Permutation (JS.ordered props) props.
Proof.
  unfold JS.ordered. induction props as [|kv r IH]; simpl; [reflexivity|].
  destruct (JS.array_index (fst kv)) as [n|].
  - rewrite place_permutation. simpl. now constructor.
  - rewrite <- Permutation_middle. now constructor.
Qed.

Lemma assign_overwritten target source :
  overwritten target (JS.writes target source) source.
Proof.
  split; [intros k; apply lookup_assign|apply keys_assign].
Qed.

End ObjectFacts.

(** ** Extracting a chunk and merging it back *)

Section AssignFacts.

Lemma lookup_none_keys k props :
  JS.lookup k props = None <-> ~ In k (keys props).
Proof.
  rewrite lookup_in_keys. split.
  - intros H [v Hv]. congruence.
  - intros H. destruct (JS.lookup k props) eqn:Hl; [|reflexivity].
    exfalso. eauto.
Qed.

Lemma set_absent k v props :
  JS.lookup k props = None -> JS.set k v props = (props ++ [(k, v)])%list.
Proof.
  induction props as [|[k' v'] r IH]; simpl; [reflexivity|].
  destruct (k' =? k); [discriminate|]. intros H. now rewrite IH.
Qed.

Lemma put_write (o : JS.object) (k : string) (v : value) :
  (k = "__proto__" -> JS.lookup "__proto__" (JS.own o) <> None) ->
  JS.put o k v = {| JS.proto := JS.proto o; JS.own := JS.set k v (JS.own o) |}.
Proof.
  intros H. unfold JS.put.
  destruct (String.eqb_spec k "__proto__") as [Hk|Hk]; [|reflexivity].
  unfold JS.finds_setter.
  destruct (JS.lookup "__proto__" (JS.own o)); [reflexivity|].
  now destruct (H Hk).
Qed.

(** Writes that find no setter are writes of own properties. *)
Lemma assign_writes (source : list (string * value)) :
  forall o,
    setter_free (JS.own o) source ->
    fold_left (fun o kv => JS.put o (fst kv) (snd kv)) source o
    = {| JS.proto := JS.proto o; JS.own := JS.writes (JS.own o) source |}.
Proof.
  induction source as [|[k v] r IH]; intros o Hfree; [now destruct o|].
  cbn [fold_left fst snd]. rewrite put_write.
  - rewrite IH; [reflexivity|].
    cbn [JS.own]. intros Hin. apply in_keys_set.
    destruct (string_dec "__proto__" k) as [Hk|Hk]; [now left|].
    right. apply Hfree. now right.
  - intros -> Hnone. apply lookup_none_keys in Hnone. apply Hnone, Hfree.
    now left.
Qed.

Lemma Object_assign_writes (props : list (string * value)) (source : value) :
  setter_free props (JS.own_props source) ->
  JS.Object_assign (VObj props) source
  = Ok (VObj (JS.writes props (JS.own_props source))).
Proof.
  intros Hfree. unfold JS.Object_assign, JS.assign.
  now rewrite (assign_writes _ (JS.plain props) Hfree).
Qed.

Lemma lookup_fields_rev (source : list (string * value)) :
  JS.lookup "__proto__" (rev (fields source)) = None.
Proof.
  apply lookup_none_keys. unfold keys, fields. rewrite map_rev, <- in_rev.
  intros Hin. apply in_map_iff in Hin as ([k v] & Hk & Hkv).
  apply filter_In in Hkv as [_ Hf]. simpl in *. subst k. discriminate.
Qed.

(** On an object that has Object.prototype and no "__proto__" of its own, the
    properties written are the fields: the one property named "__proto__"
    goes to the setter. *)
Lemma assign_fields (source : list (string * value)) :
  forall o,
    JS.lookup "__proto__" (JS.own o) = None ->
    JS.finds_setter o = true \/ ~ In "__proto__" (keys source) ->
    NoDup (keys source) ->
    JS.own (fold_left (fun o kv => JS.put o (fst kv) (snd kv)) source o)
    = JS.writes (JS.own o) (fields source).
Proof.
  induction source as [|[k v] r IH]; intros o Hown Hsetter Hnd; [reflexivity|].
  apply NoDup_cons_iff in Hnd as [Hfresh Hnd].
  cbn [fold_left fst snd]. unfold fields. cbn [filter fst].
  destruct (String.eqb_spec k "__proto__") as [->|Hne]; cbn [negb].
  - destruct Hsetter as [Hs|Hs]; [|exfalso; apply Hs; now left].
    assert (Hput : JS.own (JS.put o "__proto__" v) = JS.own o).
    { unfold JS.put. rewrite Hs. simpl. now destruct v. }
    rewrite IH; [now rewrite Hput| |now right|assumption].
    now rewrite Hput.
  - rewrite put_write by (intros ->; congruence).
    rewrite IH; [reflexivity| | |assumption]; cbn [JS.own JS.proto].
    + rewrite lookup_set_other; [assumption|exact Hne].
    + destruct Hsetter as [Hs|Hs]; [left|right; intros H; apply Hs; now right].
      unfold JS.finds_setter in *. cbn [JS.own JS.proto].
      rewrite lookup_set_other by exact Hne. exact Hs.
Qed.

Lemma Object_assign_fields (props : list (string * value)) (source : value) :
  JS.lookup "__proto__" props = None ->
  NoDup (keys (JS.own_props source)) ->
  JS.Object_assign (VObj props) source
  = Ok (VObj (JS.writes props (fields (JS.own_props source)))).
Proof.
  intros Hown Hnd. unfold JS.Object_assign, JS.assign.
  rewrite assign_fields; [reflexivity|exact Hown| |exact Hnd].
  left. unfold JS.finds_setter. simpl. now rewrite Hown.
Qed.

Lemma writes_setter_free (target source : list (string * value)) :
  setter_free target source -> setter_free (JS.writes target source) source.
Proof. intros H Hin. apply keys_assign_incl, H, Hin. Qed.

End AssignFacts.

(** C4: when the key resolves in the document, the chunk taken out for the
    key, merged back as it is, leaves the document as it was. *)
Theorem merge_yamlChunk_round_trip (main : value) (key : string) :
  Regions.resolves main key = true ->
  exists chunk,
    Regions.yamlChunk main key = Ok chunk
    /\ Regions.merge main key chunk = Ok main.
Proof.
  unfold Regions.resolves, Regions.yamlChunk, Regions.merge.
  destruct main as [| | | | | | |props]; try discriminate.
  destruct (1 <? List.length (Str.split "." key))%nat.
  - simpl.
    destruct (JS.lookup "paths" props) as [[| | | | | | |entries]|] eqn:Hp;
      try discriminate.
    destruct (JS.lookup (nth 1 (Str.split "." key) "undefined") entries)
      as [v|] eqn:Hv; [|discriminate].
    intros _. exists (VObj [(nth 1 (Str.split "." key) "undefined", v)]).
    cbn [JS.get bind]. rewrite ?Hp. cbn [JS.get bind]. rewrite ?Hv.
    split; [reflexivity|].
    rewrite Object_assign_writes.
    + cbn [JS.own_props bind]. rewrite ordered_singleton.
      unfold JS.writes. cbn [fold_left fst snd Regions.changed].
      rewrite (set_same _ _ _ Hv), (set_same _ _ _ Hp). reflexivity.
    + cbn [JS.own_props]. rewrite ordered_singleton.
      intros [Hk|[]]. simpl in Hk. apply lookup_in_keys. rewrite <- Hk. eauto.
  - cbn [JS.get bind].
    destruct (JS.lookup key props) as [v|] eqn:Hv; [|discriminate].
    intros _. exists (VObj [(key, v)]). split; [reflexivity|].
    rewrite Object_assign_writes.
    + cbn [JS.own_props bind]. rewrite ordered_singleton.
      unfold JS.writes. cbn [fold_left fst snd].
      now rewrite (set_same _ _ _ Hv).
    + cbn [JS.own_props]. rewrite ordered_singleton.
      intros [Hk|[]]. simpl in Hk. apply lookup_in_keys. rewrite <- Hk. eauto.
Qed.

Lemma merge_yamlChunk_round_trip_witness :
  exists chunk,
    Regions.yamlChunk Sample.tree "paths./users" = Ok chunk
    /\ Regions.merge Sample.tree "paths./users" chunk = Ok Sample.tree.
Proof.
  apply (merge_yamlChunk_round_trip Sample.tree "paths./users"). reflexivity.
Defined.

(** C9, where the code departs from it.  [Object.assign] writes through the
    setters of its target.  A fixed chunk whose one property is "__proto__"
    with the value [null], merged into a document that has no property of
    that name, writes nothing: it makes [null] the prototype of the document.
    Merged again into the document as it is then, which inherits no setter any
    more, it writes the property: the second merge changes the document the
    first merge gave. *)
Theorem merge_twice_is_not_once (props : list (string * value)) (key : string) :
  JS.lookup "__proto__" props = None ->
  (1 <? List.length (Str.split "." key))%nat = false ->
  Regions.merge (VObj props) key (VObj [("__proto__", VNull)])
  = Ok (VObj props)
  /\ JS.assign (JS.plain props) (VObj [("__proto__", VNull)])
     = {| JS.proto := JS.NullPrototype; JS.own := props |}
  /\ JS.assign (JS.assign (JS.plain props) (VObj [("__proto__", VNull)]))
               (VObj [("__proto__", VNull)])
     = {| JS.proto := JS.NullPrototype;
          JS.own := (props ++ [("__proto__", VNull)])%list |}.
Proof.
  intros Hown Hkey.
  assert (Honce : JS.assign (JS.plain props) (VObj [("__proto__", VNull)])
                  = {| JS.proto := JS.NullPrototype; JS.own := props |}).
  { unfold JS.assign, JS.put, JS.finds_setter. simpl. now rewrite Hown. }
  split; [|split; [exact Honce|]].
  - unfold Regions.merge. rewrite Hkey. unfold JS.Object_assign.
    now rewrite Honce.
  - rewrite Honce. unfold JS.assign, JS.put, JS.finds_setter. simpl.
    rewrite Hown. simpl. now rewrite set_absent.
Qed.

Lemma merge_twice_is_not_once_witness :
  JS.own (JS.assign (JS.plain [("info", Sample.info)])
            (VObj [("__proto__", VNull)]))
  = [("info", Sample.info)]
  /\ JS.own (JS.assign
               (JS.assign (JS.plain [("info", Sample.info)])
                  (VObj [("__proto__", VNull)]))
               (VObj [("__proto__", VNull)]))
     = [("info", Sample.info); ("__proto__", VNull)].
Proof.
  destruct (merge_twice_is_not_once [("info", Sample.info)] "info"
              eq_refl eq_refl) as (_ & Honce & Htwice).
  rewrite Htwice, Honce. split; reflexivity.
Defined.

(** C5, where the code departs from it.  A property of the fixed chunk named
    "__proto__" is not written at a place that has no property of that name:
    the write goes to the setter the place inherits.  The other properties of
    the fixed chunk are written, and exactly those. *)
Theorem proto_field_is_not_written (props : list (string * value))
    (key : string) (fixed v : value) :
  NoDup (keys (JS.own_props fixed)) ->
  JS.lookup "__proto__" (JS.own_props fixed) = Some v ->
  ((1 <? List.length (Str.split "." key))%nat = false ->
   JS.lookup "__proto__" props = None ->
   exists props',
     Regions.merge (VObj props) key fixed = Ok (VObj props')
     /\ JS.lookup "__proto__" props' = None
     /\ overwritten props props' (fields (JS.own_props fixed)))
  /\ ((1 <? List.length (Str.split "." key))%nat = true ->
      forall entries,
        JS.lookup "paths" props = Some (VObj entries) ->
        JS.lookup "__proto__" entries = None ->
        exists entries',
          Regions.merge (VObj props) key fixed
            = Ok (VObj (JS.set "paths" (VObj entries') props))
          /\ JS.lookup "__proto__" entries' = None
          /\ overwritten entries entries' (fields (JS.own_props fixed))).
Proof.
  intros Hnd _. unfold Regions.merge. split; intros Hkey; rewrite Hkey.
  - intros Hown. eexists. rewrite Object_assign_fields by assumption.
    split; [reflexivity|]. split; [|apply assign_overwritten].
    now rewrite lookup_assign, lookup_fields_rev.
  - intros entries Hp Hown. eexists. simpl. rewrite Hp. cbn [bind].
    rewrite Object_assign_fields by assumption. cbn [bind Regions.changed].
    split; [reflexivity|]. split; [|apply assign_overwritten].
    now rewrite lookup_assign, lookup_fields_rev.
Qed.

Lemma proto_field_is_not_written_witness :
  exists entries',
    Regions.merge Sample.tree "paths./users"
      (VObj [("__proto__", VNull);
             ("/users", VObj [("summary", VStr "All users")])])
    = Ok (VObj (JS.set "paths" (VObj entries')
                       [("openapi", VStr "3.0.0"); ("info", Sample.info);
                        ("paths", VObj [("/users", Sample.users);
                                        ("/orders", Sample.orders)])]))
    /\ JS.lookup "__proto__" entries' = None
    /\ JS.lookup "/users" entries' = Some (VObj [("summary", VStr "All users")]).
Proof.
  destruct (proto_field_is_not_written
              [("openapi", VStr "3.0.0"); ("info", Sample.info);
               ("paths", VObj [("/users", Sample.users);
                               ("/orders", Sample.orders)])]
              "paths./users"
              (VObj [("__proto__", VNull);
                     ("/users", VObj [("summary", VStr "All users")])])
              VNull)
    as [_ Hpath].
  - repeat constructor; simpl; intuition discriminate.
  - reflexivity.
  - destruct (Hpath eq_refl _ eq_refl eq_refl)
      as (entries' & Hm & Hproto & Hlook & _).
    exists entries'. split; [exact Hm|]. split; [exact Hproto|].
    rewrite Hlook. reflexivity.
Defined.

(** ** The partition of the issues *)

Section PartitionFacts.




Lemma push_permutation k i acc :
  Permutation (concat (map snd (Regions.add k i acc)))
              (i :: concat (map snd acc)).
Proof.
  induction acc as [|[k' g] r IH]; simpl; [reflexivity|].
  destruct (k' =? k); simpl.
  - rewrite <- app_assoc. simpl.
    symmetry. apply Permutation_middle.
  - rewrite IH. symmetry. apply Permutation_middle.
Qed.

Lemma push_keys k i acc :
  map fst (Regions.add k i acc) =
    if in_dec string_dec k (map fst acc) then map fst acc
    else (map fst acc ++ [k])%list.
Proof.
  induction acc as [|[k' g] r IH]; simpl; [reflexivity|].
  destruct (String.eqb_spec k' k) as [->|Hne]; simpl.
  - destruct (string_dec k k); [reflexivity|congruence].
  - rewrite IH. destruct (string_dec k' k); [congruence|].
    now destruct (in_dec string_dec k (map fst r)).
Qed.

Lemma push_keyed k i acc :
  Regions.chunkKey i = k ->
  Forall (fun g => Forall (fun j => Regions.chunkKey j = fst g) (snd g)) acc ->
  Forall (fun g => Forall (fun j => Regions.chunkKey j = fst g) (snd g))
         (Regions.add k i acc).
Proof.
  intros Hk. induction acc as [|[k' g] r IH]; simpl; intros H.
  - repeat constructor. exact Hk.
  - apply Forall_cons_iff in H as [Hg Hr].
    destruct (String.eqb_spec k' k) as [->|Hne]; constructor; simpl in *; auto.
    apply Forall_app. split; [assumption|]. now repeat constructor.
Qed.

Lemma group_of_keys k acc :
  Regions.group_of k acc = None <-> ~ In k (map fst acc).
Proof.
  induction acc as [|[k' g] r IH]; simpl; [tauto|].
  destruct (String.eqb_spec k' k) as [->|Hne].
  - split; [discriminate|tauto].
  - rewrite IH. tauto.
Qed.

(** The reducer throws when a key names a member of Object.prototype, and
    makes the groups otherwise. *)
Lemma reduce_spec (l : list Issue) :
  forall acc,
    Forall (fun k => JS.inherited k = false) (map fst acc) ->
    Regions.reduce l acc =
      if existsb (fun i => JS.inherited (Regions.chunkKey i)) l
      then Throw "TypeError: acc[key].push is not a function"
      else Ok (fold_left
                 (fun acc issue => Regions.add (Regions.chunkKey issue) issue acc)
                 l acc).
Proof.
  induction l as [|i r IH]; intros acc Hacc; [reflexivity|].
  cbn [Regions.reduce existsb fold_left]. unfold Regions.push.
  destruct (JS.inherited (Regions.chunkKey i)) eqn:Hi; cbn [orb].
  - assert (Hnone : Regions.group_of (Regions.chunkKey i) acc = None).
    { apply group_of_keys. intros Hin. rewrite Forall_forall in Hacc.
      rewrite (Hacc _ Hin) in Hi. discriminate. }
    now rewrite Hnone.
  - assert (Hok : match Regions.group_of (Regions.chunkKey i) acc with
                  | Some _ => Ok (Regions.add (Regions.chunkKey i) i acc)
                  | None => Ok (Regions.add (Regions.chunkKey i) i acc)
                  end = Ok (Regions.add (Regions.chunkKey i) i acc))
      by now destruct (Regions.group_of (Regions.chunkKey i) acc).
    rewrite Hok. cbn [bind]. apply IH.
    rewrite push_keys.
    destruct (in_dec string_dec (Regions.chunkKey i) (map fst acc));
      [assumption|].
    apply Forall_app. split; [assumption|]. now repeat constructor.
Qed.

Lemma errorsByChunkKey_spec (l : list Issue) :
  Regions.errorsByChunkKey l =
    if existsb (fun i => JS.inherited (Regions.chunkKey i)) l
    then Throw "TypeError: acc[key].push is not a function"
    else Ok (Regions.groups l).
Proof. apply reduce_spec. constructor. Qed.

Lemma errorsByChunkKey_groups (l : list Issue) groups :
  Regions.errorsByChunkKey l = Ok groups -> groups = Regions.groups l.
Proof.
  rewrite errorsByChunkKey_spec.
  destruct (existsb _ l); [discriminate|]. intros H. now injection H.
Qed.

Lemma groups_invariant (l : list Issue) acc :
  NoDup (map fst acc) ->
  Forall (fun g => Forall (fun j => Regions.chunkKey j = fst g) (snd g)) acc ->
  let groups :=
    fold_left (fun acc issue => Regions.add (Regions.chunkKey issue) issue acc)
              l acc in
  Permutation (concat (map snd groups)) (concat (map snd acc) ++ l)%list
  /\ NoDup (map fst groups)
  /\ Forall (fun g => Forall (fun j => Regions.chunkKey j = fst g) (snd g))
            groups.
Proof.
  revert acc. induction l as [|i r IH]; intros acc Hnd Hk; simpl.
  - rewrite app_nil_r. auto.
  - destruct (IH (Regions.add (Regions.chunkKey i) i acc)) as (Hp & Hn & Hf).
    + rewrite push_keys.
      destruct (in_dec string_dec (Regions.chunkKey i) (map fst acc));
        [assumption|].
      apply NoDup_app; [assumption|repeat constructor; intros []|].
      intros x Hx [<-|[]]. contradiction.
    + now apply push_keyed.
    + split; [|split; assumption].
      rewrite Hp, push_permutation. apply Permutation_middle.
Qed.


Lemma partition_batches (groups : list (string * list Issue)) :
  map snd
      (flat_map
         (fun group =>
            map (pair (fst group))
                (spliced Regions.CHUNK_SIZE (List.length (snd group)) (snd group)))
         groups)
  = Regions.plan groups.
Proof.
  unfold Regions.plan.
  induction groups as [|g r IH]; simpl; [reflexivity|].
  rewrite map_app, IH, map_map. simpl. now rewrite map_id.
Qed.


End PartitionFacts.




(** ** The region key of an issue, once more *)




(** ** Traces *)

Section TraceFacts.
Variable E : Env.

Lemma snoc_split {A : Type} (good before after : list A) (c x : A) :
  (good ++ [c])%list = (before ++ x :: after)%list ->
  (after = [] /\ x = c /\ before = good) \/ In x good.
Proof.
  revert before. induction good as [|g r IH]; intros before H.
  - destruct before as [|b before']; simpl in H.
    + injection H as -> <-. now left.
    + injection H as _ H. now destruct before'.
  - destruct before as [|b before']; simpl in H.
    + injection H as -> _. right. now left.
    + injection H as -> H. destruct (IH _ H) as [(Ha & Hx & Hb)|Hin].
      * left. subst. auto.
      * right. now right.
Qed.

Lemma callAiWithChunk_spec (message yaml : string) (chunk : list Issue)
    (trace : list call) :
  exists c,
    callAiWithChunk E message yaml chunk trace
      = (returned c, (trace ++ [c])%list)
    /\ sent c = {| yamlContent := yaml; issuesChunk := chunk |}
    /\ returned c = settled message (fetch E trace (sent c)).
Proof.
  eexists {| sent := _; returned := _ |}. simpl.
  split; [reflexivity|]. split; reflexivity.
Qed.

Lemma recorded_inv (message : string) (trace before after : list call)
    (c : call) :
  recorded E message trace ->
  trace = (before ++ c :: after)%list ->
  returned c = settled message (fetch E before (sent c)).
Proof.
  intros Hrec. revert before after.
  induction Hrec as [|trace x Hrec IH Hx]; intros before after H.
  - now destruct before.
  - destruct after as [|a after'] using rev_ind.
    + apply app_inj_tail in H as [-> ->]. exact Hx.
    + clear IHafter'. rewrite app_comm_cons, app_assoc in H.
      apply app_inj_tail in H as [-> _]. eapply IH. reflexivity.
Qed.

(** A service that delivers nothing makes the helper return a failure. *)
Lemma undelivered_failed (message : string) (f : fetched) :
  Str.startsWith message "AI fix failed:" = true ->
  undelivered f = true ->
  Str.startsWith (settled message f) "AI fix failed:" = true.
Proof.
  intros Hm. unfold undelivered, settled, answer.
  destruct f as [m|r]; [auto|].
  destruct (ok r); simpl.
  - destruct (json r) as [result|]; simpl; [|auto].
    destruct (content result) as [t|]; simpl; [|auto].
    destruct t; simpl; auto; try discriminate.
    + destruct b; auto.
    + destruct (n =? 0)%Z; auto.
    + destruct (s =? ""); simpl; [auto|discriminate].
  - intros _. destruct (text r) as [body|]; simpl; [|auto].
    reflexivity.
Qed.

Lemma ends_prepend (fl : flow value) (pre new : list call) :
  Forall (clean E) pre -> ends E fl new -> ends E fl (pre ++ new)%list.
Proof.
  intros Hpre Hends. destruct Hends.
  - constructor. apply Forall_app. auto.
  - constructor. apply Forall_app. auto.
  - rewrite app_assoc. constructor; [apply Forall_app|]; auto.
  - rewrite app_assoc. constructor; [apply Forall_app|]; auto.
Qed.

Lemma ends_next_clean (fl : flow value) (new : list call) (main : value) :
  ends E fl new -> fl = Next main -> Forall (clean E) new.
Proof. intros H Hfl. destruct H; (assumption || discriminate). Qed.

Lemma spliced_fuel {A : Type} (size fuel fuel' : nat) (l : list A) :
  0 < size -> List.length l <= fuel -> List.length l <= fuel' ->
  spliced size fuel l = spliced size fuel' l.
Proof.
  intros Hsize. revert fuel' l.
  induction fuel as [|fuel IH]; intros fuel' l H H'.
  - destruct l; [now destruct fuel'|simpl in H; lia].
  - destruct l as [|x r]; [now destruct fuel'|].
    destruct fuel' as [|fuel']; [simpl in H'; lia|].
    simpl. f_equal. apply IH; rewrite length_skipn; simpl List.length in *; lia.
Qed.

End TraceFacts.

(** ** The loops of the draft with regions *)

Section RegionsFacts.
Variable E : Env.

Lemma chunks_trace (fuel : nat) :
  forall key issues chunk main trace0 fl trace,
    List.length issues <= fuel ->
    recorded E Regions.exception_message trace0 ->
    Regions.chunks E fuel key issues chunk main trace0 = (fl, trace) ->
    exists new,
      trace = (trace0 ++ new)%list
      /\ recorded E Regions.exception_message trace
      /\ ends E fl new
      /\ (exists rest,
             spliced Regions.CHUNK_SIZE (List.length issues) issues
             = (map batch new ++ rest)%list)
      /\ (forall m, fl = Next m ->
            spliced Regions.CHUNK_SIZE (List.length issues) issues
            = map batch new).
Proof.
  induction fuel as [|fuel IH]; intros key issues chunk main trace0 fl trace
    Hlen Hrec Hrun.
  - destruct issues; [|simpl in Hlen; lia].
    simpl in Hrun. injection Hrun as <- <-.
    exists []. rewrite app_nil_r.
    repeat split; auto; [constructor; constructor|now exists []].
  - destruct issues as [|i r].
    + simpl in Hrun. injection Hrun as <- <-.
      exists []. rewrite app_nil_r.
      repeat split; auto; [constructor; constructor|now exists []].
    + cbn [Regions.chunks] in Hrun.
      change (0 <? List.length (i :: r))%nat with true in Hrun. cbv iota in Hrun.
      assert (Hplan :
                spliced Regions.CHUNK_SIZE (List.length (i :: r)) (i :: r)
                = firstn Regions.CHUNK_SIZE (i :: r)
                    :: spliced Regions.CHUNK_SIZE
                         (List.length (skipn Regions.CHUNK_SIZE (i :: r)))
                         (skipn Regions.CHUNK_SIZE (i :: r))).
      { simpl List.length. cbn [spliced].
        change (0 <? List.length (i :: r))%nat with true. cbv iota. f_equal.
        apply spliced_fuel; [unfold Regions.CHUNK_SIZE; lia| |apply Nat.le_refl].
        rewrite length_skipn. unfold Regions.CHUNK_SIZE. simpl List.length. lia. }
      destruct (yaml_dump E chunk) as [yaml|e].
      * destruct (callAiWithChunk_spec E Regions.exception_message yaml
                    (firstn Regions.CHUNK_SIZE (i :: r)) trace0)
          as (c & Hcall & Hsent & Hret).
        unfold Regions.callAiWithChunk in Hrun.
        rewrite Hcall in Hrun.
        assert (Hbatch : batch c = firstn Regions.CHUNK_SIZE (i :: r))
          by (unfold batch; now rewrite Hsent).
        assert (Hrec' : recorded E Regions.exception_message (trace0 ++ [c])%list)
          by now constructor.
        destruct (Str.startsWith (returned c) "AI fix failed:") eqn:Hfail.
        { injection Hrun as <- <-. exists [c].
          split; [reflexivity|]. split; [assumption|]. split.
          - apply (ends_failed E [] c); [constructor|exact Hfail].
          - split; [|discriminate].
            rewrite Hplan. eexists. simpl. rewrite Hbatch. reflexivity. }
        destruct (yaml_load E (returned c)) as [fixed|e] eqn:Hload; cbn [bind] in Hrun.
        { destruct (Regions.merge main key fixed) as [main'|e]; cbn [bind] in Hrun.
          - apply IH in Hrun;
              [|rewrite length_skipn; unfold Regions.CHUNK_SIZE;
                simpl List.length in *; lia
               |assumption].
            destruct Hrun as (new & -> & Hr & Hends & [rest Hpre] & Hall).
            exists (c :: new). rewrite <- app_assoc.
            split; [reflexivity|]. split; [now rewrite <- app_assoc in Hr|].
            split; [|split].
            + apply (ends_prepend E fl [c] new); [|assumption].
              repeat constructor; [exact Hfail|eauto].
            + exists rest. rewrite Hplan, Hpre. cbn [map app].
              rewrite Hbatch. reflexivity.
            + intros m Hm. rewrite Hplan, (Hall m Hm). cbn [map].
              rewrite Hbatch. reflexivity.
          - injection Hrun as <- <-. exists [c].
            split; [reflexivity|]. split; [assumption|]. split.
            + apply (ends_unparsable E [] c); [constructor|exact Hfail].
            + split; [|discriminate].
              rewrite Hplan. eexists. simpl. rewrite Hbatch. reflexivity. }
        { injection Hrun as <- <-. exists [c].
          split; [reflexivity|]. split; [assumption|]. split.
          - apply (ends_unparsable E [] c); [constructor|exact Hfail].
          - split; [|discriminate].
            rewrite Hplan. eexists. simpl. rewrite Hbatch. reflexivity. }
      * injection Hrun as <- <-. exists []. rewrite app_nil_r.
        split; [reflexivity|]. split; [assumption|]. split.
        -- constructor. constructor.
        -- split; [|discriminate]. eexists. reflexivity.
Qed.

Lemma regions_trace (groups : list (string * list Issue)) :
  forall main trace0 fl trace,
    recorded E Regions.exception_message trace0 ->
    Regions.regions E groups main trace0 = (fl, trace) ->
    exists new,
      trace = (trace0 ++ new)%list
      /\ recorded E Regions.exception_message trace
      /\ ends E fl new
      /\ (exists rest, Regions.plan groups = (map batch new ++ rest)%list)
      /\ (forall m, fl = Next m -> Regions.plan groups = map batch new).
Proof.
  induction groups as [|[key issues] groups IH]; intros main trace0 fl trace
    Hrec Hrun.
  - simpl in Hrun. injection Hrun as <- <-. exists []. rewrite app_nil_r.
    repeat split; auto; [constructor; constructor|now exists []].
  - cbn [Regions.regions] in Hrun.
    destruct (Regions.yamlChunk main key) as [chunk|e].
    + destruct (Regions.chunks E (List.length issues) key issues chunk main trace0)
        as [fl1 trace1] eqn:Hchunks.
      apply chunks_trace in Hchunks; [|apply Nat.le_refl|assumption].
      destruct Hchunks as (new1 & -> & Hr1 & Hends1 & [rest1 Hpre1] & Hall1).
      destruct fl1 as [main1|result|e].
      * apply IH in Hrun; [|assumption].
        destruct Hrun as (new2 & -> & Hr2 & Hends2 & [rest2 Hpre2] & Hall2).
        exists (new1 ++ new2)%list. rewrite <- app_assoc.
        split; [reflexivity|]. split; [now rewrite <- app_assoc in Hr2|].
        split; [|split].
        -- apply ends_prepend; [|assumption].
           now apply (ends_next_clean E _ _ main1 Hends1).
        -- exists rest2. unfold Regions.plan in *. simpl.
           rewrite (Hall1 main1 eq_refl), Hpre2, map_app, <- app_assoc.
           reflexivity.
        -- intros m Hm. unfold Regions.plan in *. simpl.
           rewrite (Hall1 main1 eq_refl), (Hall2 m Hm), map_app. reflexivity.
      * injection Hrun as <- <-. exists new1.
        split; [reflexivity|]. split; [assumption|]. split; [assumption|].
        split; [|discriminate].
        exists (rest1 ++ Regions.plan groups)%list. unfold Regions.plan in *. simpl.
        rewrite Hpre1, <- app_assoc. reflexivity.
      * injection Hrun as <- <-. exists new1.
        split; [reflexivity|]. split; [assumption|]. split; [assumption|].
        split; [|discriminate].
        exists (rest1 ++ Regions.plan groups)%list. unfold Regions.plan in *. simpl.
        rewrite Hpre1, <- app_assoc. reflexivity.
    + injection Hrun as <- <-. exists []. rewrite app_nil_r.
      split; [reflexivity|]. split; [assumption|]. split.
      * constructor. constructor.
      * split; [|discriminate]. eexists. reflexivity.
Qed.

(** More turns than issues change nothing. *)
Lemma chunks_fuel (fuel fuel' : nat) :
  forall key issues chunk main trace,
    List.length issues <= fuel -> List.length issues <= fuel' ->
    Regions.chunks E fuel key issues chunk main trace
    = Regions.chunks E fuel' key issues chunk main trace.
Proof.
  revert fuel'. induction fuel as [|fuel IH];
    intros fuel' key issues chunk main trace H H'.
  - destruct issues; [now destruct fuel'|simpl in H; lia].
  - destruct issues as [|i r]; [now destruct fuel'|].
    destruct fuel' as [|fuel']; [simpl in H'; lia|].
    cbn [Regions.chunks].
    change (0 <? List.length (i :: r))%nat with true. cbv iota.
    destruct (yaml_dump E chunk) as [yaml|e]; [|reflexivity].
    destruct (Regions.callAiWithChunk E yaml _ trace) as [fixed trace'].
    destruct (Str.startsWith fixed "AI fix failed:"); [reflexivity|].
    destruct (yaml_load E fixed) as [obj|e]; cbn [bind]; [|reflexivity].
    destruct (Regions.merge main key obj) as [main'|e]; cbn [bind];
      [|reflexivity].
    apply IH; rewrite length_skipn; unfold Regions.CHUNK_SIZE;
      simpl List.length in *; lia.
Qed.

(** A run that no call and no exception stops sends every chunk of the
    partition, in its order. *)
Lemma regions_visit_partition (allIssues : list Issue) (main m : value)
    (trace : list call) :
  Regions.regions E (JS.ordered (Regions.groups allIssues)) main []
    = (Next m, trace) ->
  map batch trace = map snd (Regions.partition allIssues).
Proof.
  intros Hrun. apply regions_trace in Hrun; [|constructor].
  destruct Hrun as (new & -> & _ & _ & _ & Hall).
  unfold Regions.partition. rewrite partition_batches.
  symmetry. apply (Hall m eq_refl).
Qed.

End RegionsFacts.

Section AbortFacts.
Variable E : Env.

Lemma ends_failed_last (fl : flow value) (trace before after : list call)
    (c : call) :
  ends E fl trace ->
  trace = (before ++ c :: after)%list ->
  failed_call c = true ->
  after = [] /\ fl = Return (returned c).
Proof.
  intros Hends Htrace Hfail.
  assert (Hclean : forall l, Forall (clean E) l -> ~ In c l).
  { intros l Hl Hin. rewrite Forall_forall in Hl.
    destruct (Hl c Hin) as [Hc _]. congruence. }
  destruct Hends as [main new Hall|e new Hall|good c0 Hall Hc0|good c0 Hall Hc0].
  - exfalso. apply (Hclean new Hall). subst new. apply in_elt.
  - exfalso. apply (Hclean new Hall). subst new. apply in_elt.
  - destruct (snoc_split _ _ _ _ _ Htrace) as [(-> & -> & _)|Hin]; [auto|].
    exfalso. now apply (Hclean good Hall).
  - destruct (snoc_split _ _ _ _ _ Htrace) as [(_ & -> & _)|Hin]; [congruence|].
    exfalso. now apply (Hclean good Hall).
Qed.

Lemma ends_unloadable_last (fl : flow value) (trace before after : list call)
    (c : call) :
  ends E fl trace ->
  trace = (before ++ c :: after)%list ->
  failed_call c = false ->
  (forall v, yaml_load E (returned c) <> Ok v) ->
  after = []
  /\ fl = Return "AI fix failed: Could not parse YAML response from AI.".
Proof.
  intros Hends Htrace Hfail Hload.
  assert (Hclean : forall l, Forall (clean E) l -> ~ In c l).
  { intros l Hl Hin. rewrite Forall_forall in Hl.
    destruct (Hl c Hin) as [_ [v Hv]]. now apply (Hload v). }
  destruct Hends as [main new Hall|e new Hall|good c0 Hall Hc0|good c0 Hall Hc0].
  - exfalso. apply (Hclean new Hall). subst new. apply in_elt.
  - exfalso. apply (Hclean new Hall). subst new. apply in_elt.
  - destruct (snoc_split _ _ _ _ _ Htrace) as [(_ & -> & _)|Hin]; [congruence|].
    exfalso. now apply (Hclean good Hall).
  - destruct (snoc_split _ _ _ _ _ Htrace) as [(-> & _ & _)|Hin]; [auto|].
    exfalso. now apply (Hclean good Hall).
Qed.

(** What a run of [getAiFixes] is made of: the flow the loops end with, and
    the string returned for it. *)
Lemma getAiFixes_run (content : string) (issues : formatted) :
  let run := Regions.getAiFixes E content issues [] in
  snd run = []
  \/ exists main fl,
      yaml_load E content = Ok main
      /\ Regions.regions E
           (JS.ordered
              (Regions.groups (errors issues ++ warnings issues)%list))
           main [] = (fl, snd run)
      /\ forall result, fl = Return result -> fst run = result.
Proof.
  unfold Regions.getAiFixes.
  destruct (configured E); simpl; [|now left].
  destruct (yaml_load E content) as [main|e]; [|now left].
  destruct (Regions.errorsByChunkKey _) as [groups|e] eqn:Hgroups; [|now left].
  apply errorsByChunkKey_groups in Hgroups. subst groups.
  destruct (Regions.regions E _ main []) as [fl trace] eqn:Hrun.
  right. exists main, fl. split; [reflexivity|].
  destruct fl as [m|result|e]; simpl.
  - destruct (yaml_dump E m); simpl; (split; [assumption|discriminate]).
  - split; [assumption|]. intros r H. now injection H.
  - split; [assumption|discriminate].
Qed.

End AbortFacts.

(** ** The loop of index.js *)

Section SimpleFacts.
Variable E : Env.

Lemma last_cons {A : Type} (x d : A) (l : list A) :
  last (x :: l) d = last l x.
Proof.
  revert x d. induction l as [|y r IH]; intros x d; [reflexivity|].
  change (last (x :: y :: r) d) with (last (y :: r) d).
  now rewrite (IH y d), (IH y x).
Qed.

Lemma iterations_trace (fuel : nat) :
  forall allIssues currentYaml trace0 result trace,
    List.length allIssues <= fuel ->
    recorded E Simple.exception_message trace0 ->
    Simple.iterations E fuel allIssues currentYaml trace0 = (result, trace) ->
    exists new,
      trace = (trace0 ++ new)%list
      /\ recorded E Simple.exception_message trace
      /\ ((Forall (fun c => failed_call c = false) new
           /\ map batch new
              = spliced Simple.CHUNK_SIZE (List.length allIssues) allIssues
           /\ result = last (map returned new) currentYaml)
          \/ (exists good c,
                 new = (good ++ [c])%list
                 /\ Forall (fun c => failed_call c = false) good
                 /\ failed_call c = true
                 /\ result = returned c
                 /\ exists rest,
                     spliced Simple.CHUNK_SIZE (List.length allIssues) allIssues
                     = (map batch new ++ rest)%list)).
Proof.
  induction fuel as [|fuel IH]; intros allIssues currentYaml trace0 result trace
    Hlen Hrec Hrun.
  - destruct allIssues; [|simpl in Hlen; lia].
    simpl in Hrun. injection Hrun as <- <-.
    exists []. rewrite app_nil_r. split; [reflexivity|]. split; [assumption|].
    left. repeat split. constructor.
  - destruct allIssues as [|i r].
    + simpl in Hrun. injection Hrun as <- <-.
      exists []. rewrite app_nil_r. split; [reflexivity|]. split; [assumption|].
      left. repeat split. constructor.
    + cbn [Simple.iterations] in Hrun.
      change (0 <? List.length (i :: r))%nat with true in Hrun. cbv iota in Hrun.
      assert (Hplan :
                spliced Simple.CHUNK_SIZE (List.length (i :: r)) (i :: r)
                = firstn Simple.CHUNK_SIZE (i :: r)
                    :: spliced Simple.CHUNK_SIZE
                         (List.length (skipn Simple.CHUNK_SIZE (i :: r)))
                         (skipn Simple.CHUNK_SIZE (i :: r))).
      { simpl List.length. cbn [spliced].
        change (0 <? List.length (i :: r))%nat with true. cbv iota. f_equal.
        apply spliced_fuel; [unfold Simple.CHUNK_SIZE; lia| |apply Nat.le_refl].
        rewrite length_skipn. unfold Simple.CHUNK_SIZE. simpl List.length. lia. }
      destruct (callAiWithChunk_spec E Simple.exception_message currentYaml
                  (firstn Simple.CHUNK_SIZE (i :: r)) trace0)
        as (c & Hcall & Hsent & Hret).
      unfold Simple.callAiWithChunk in Hrun.
      rewrite Hcall in Hrun.
      assert (Hbatch : batch c = firstn Simple.CHUNK_SIZE (i :: r))
        by (unfold batch; now rewrite Hsent).
      assert (Hrec' : recorded E Simple.exception_message (trace0 ++ [c])%list)
        by now constructor.
      destruct (Str.startsWith (returned c) "AI fix failed:") eqn:Hfail.
      * injection Hrun as <- <-. exists [c].
        split; [reflexivity|]. split; [assumption|].
        right. exists [], c. repeat split; auto.
        rewrite Hplan. eexists. cbn [map app]. rewrite Hbatch. reflexivity.
      * apply IH in Hrun;
          [|rewrite length_skipn; unfold Simple.CHUNK_SIZE;
            simpl List.length in *; lia
           |assumption].
        destruct Hrun as (new & -> & Hr & Hcases).
        exists (c :: new). rewrite <- app_assoc.
        split; [reflexivity|]. split; [now rewrite <- app_assoc in Hr|].
        destruct Hcases as [(Hall & Hmap & Hres)
                           |(good & c0 & -> & Hall & Hc0 & Hres & rest & Hpre)].
        -- left. split; [now constructor|]. split.
           ++ rewrite Hplan, <- Hmap. cbn [map]. now rewrite Hbatch.
           ++ rewrite Hres. cbn [map]. now rewrite last_cons.
        -- right. exists (c :: good), c0. repeat split; auto.
           exists rest. rewrite Hplan, Hpre. cbn [map app].
           rewrite Hbatch. reflexivity.
Qed.

(** More turns than issues change nothing. *)
Lemma iterations_fuel (fuel fuel' : nat) :
  forall allIssues currentYaml trace,
    List.length allIssues <= fuel -> List.length allIssues <= fuel' ->
    Simple.iterations E fuel allIssues currentYaml trace
    = Simple.iterations E fuel' allIssues currentYaml trace.
Proof.
  revert fuel'. induction fuel as [|fuel IH];
    intros fuel' allIssues currentYaml trace H H'.
  - destruct allIssues; [now destruct fuel'|simpl in H; lia].
  - destruct allIssues as [|i r]; [now destruct fuel'|].
    destruct fuel' as [|fuel']; [simpl in H'; lia|].
    cbn [Simple.iterations].
    change (0 <? List.length (i :: r))%nat with true. cbv iota.
    destruct (Simple.callAiWithChunk E currentYaml _ trace) as [fixed trace'].
    destruct (Str.startsWith fixed "AI fix failed:"); [reflexivity|].
    apply IH; rewrite length_skipn; unfold Simple.CHUNK_SIZE;
      simpl List.length in *; lia.
Qed.

Lemma simple_getAiFixes_run (content : string) (issues : formatted) :
  configured E = true ->
  let run := Simple.getAiFixes E content issues [] in
  let allIssues := (errors issues ++ warnings issues)%list in
  recorded E Simple.exception_message (snd run)
  /\ ((Forall (fun c => failed_call c = false) (snd run)
       /\ map batch (snd run) = Simple.partition allIssues
       /\ fst run = last (map returned (snd run)) content)
      \/ (exists good c,
             snd run = (good ++ [c])%list
             /\ Forall (fun c => failed_call c = false) good
             /\ failed_call c = true
             /\ fst run = returned c
             /\ exists rest,
                 Simple.partition allIssues = (map batch (snd run) ++ rest)%list)).
Proof.
  intros Hkey. unfold Simple.getAiFixes. rewrite Hkey. simpl negb. cbv iota.
  destruct (Simple.iterations E _ _ content []) as [result trace] eqn:Hrun.
  apply iterations_trace in Hrun; [|apply Nat.le_refl|constructor].
  destruct Hrun as (new & -> & Hrec & Hcases). simpl. auto.
Qed.

End SimpleFacts.

(** C2, where the draft with regions departs from it.  The reducer keeps its
    groups in an object created by [{}].  When the key of an issue names a
    member of Object.prototype ("constructor", "toString", ...), the reducer
    finds that member in place of a group and throws; [getAiFixes] catches
    the exception and returns the sentence on a critical error: no chunk is
    made and no call, so every issue of the list is dropped, also those of
    the other keys. *)
Theorem inherited_key_drops_every_issue (E : Env) (content : string)
    (issues : formatted) (i : Issue) (main : value) :
  configured E = true ->
  yaml_load E content = Ok main ->
  In i (errors issues ++ warnings issues)%list ->
  JS.inherited (Regions.chunkKey i) = true ->
  (exists e,
      Regions.errorsByChunkKey (errors issues ++ warnings issues)%list
      = Throw e)
  /\ Regions.getAiFixes E content issues [] = (Regions.critical, []).
Proof.
  intros Hkey Hload Hin Hi.
  assert (Hthrow : Regions.errorsByChunkKey (errors issues ++ warnings issues)%list
                   = Throw "TypeError: acc[key].push is not a function").
  { rewrite errorsByChunkKey_spec.
    assert (Hex : existsb (fun i => JS.inherited (Regions.chunkKey i))
                    (errors issues ++ warnings issues)%list = true)
      by (apply existsb_exists; eauto).
    now rewrite Hex. }
  split; [eauto|].
  unfold Regions.getAiFixes. rewrite Hkey, Hload. simpl negb. cbv iota.
  now rewrite Hthrow.
Qed.

Lemma inherited_key_drops_every_issue_witness :
  Regions.getAiFixes (Sample.env (fun _ => Sample.echo)) Sample.document
    inheriting []
  = ("AI fix failed: A critical error occurred while processing the YAML.", [])
  /\ Simple.partition (errors inheriting ++ warnings inheriting)%list
     = [[Sample.users_error; constructor_error]].
Proof.
  split; [|reflexivity].
  apply (inherited_key_drops_every_issue (Sample.env (fun _ => Sample.echo))
           Sample.document inheriting constructor_error Sample.tree);
    try reflexivity.
  right. now left.
Defined.



(** C1, as the code has it.  The calls are made for the chunks of the
    partition, in its order, and for no chunk after the one that fails.
    Whenever the service delivers no completion for a chunk (the request is
    rejected, the status is not a success, the body has no text) the string
    the helper returns starts with "AI fix failed:"; after a call that returned
    such a string no other call is made and [getAiFixes] returns that very
    string.  In the draft with regions, after a call whose string does not
    load as YAML no other call is made either, and the result is the fixed
    sentence on parsing.  (The string gives the reason; it names no region and
    no chunk.)  The first half is the draft with regions, the second half
    index.js. *)
Theorem getAiFixes_aborts (E : Env) (content : string) (issues : formatted)
    (before after : list call) (c : call) :
  (snd (Regions.getAiFixes E content issues []) = (before ++ c :: after)%list ->
   (exists rest,
       map snd (Regions.partition (errors issues ++ warnings issues)%list)
       = (map batch (before ++ [c]) ++ map batch after ++ rest)%list)
   /\ returned c = settled Regions.exception_message (fetch E before (sent c))
   /\ (undelivered (fetch E before (sent c)) = true -> failed_call c = true)
   /\ (failed_call c = true ->
       after = [] /\ fst (Regions.getAiFixes E content issues []) = returned c)
   /\ (failed_call c = false ->
       (forall v, yaml_load E (returned c) <> Ok v) ->
       after = []
       /\ fst (Regions.getAiFixes E content issues [])
          = "AI fix failed: Could not parse YAML response from AI."))
  /\ (snd (Simple.getAiFixes E content issues []) = (before ++ c :: after)%list ->
      (exists rest,
          Simple.partition (errors issues ++ warnings issues)%list
          = (map batch (before ++ [c]) ++ map batch after ++ rest)%list)
      /\ returned c = settled Simple.exception_message (fetch E before (sent c))
      /\ (undelivered (fetch E before (sent c)) = true -> failed_call c = true)
      /\ (failed_call c = true ->
          after = [] /\ fst (Simple.getAiFixes E content issues []) = returned c)).
Proof.
  split; intros Htrace.
  - destruct (getAiFixes_run E content issues)
      as [Hnil|(main & fl & _ & Hrun & Hres)].
    { rewrite Hnil in Htrace. now destruct before. }
    apply regions_trace in Hrun; [|constructor].
    destruct Hrun as (new & Hnew & Hrec & Hends & [rest Hpre] & _).
    simpl in Hnew. rewrite <- Hnew in Hends, Hpre.
    assert (Hret : returned c
                   = settled Regions.exception_message (fetch E before (sent c)))
      by (eapply recorded_inv; eassumption).
    split; [|split; [exact Hret|split; [|split]]].
    + exists rest. unfold Regions.partition.
      rewrite partition_batches, Hpre, Htrace, !map_app, <- !app_assoc.
      reflexivity.
    + intros Hu. unfold failed_call. rewrite Hret.
      now apply undelivered_failed.
    + intros Hfail.
      destruct (ends_failed_last E _ _ _ _ _ Hends Htrace Hfail) as [-> Hfl].
      split; [reflexivity|]. now apply Hres.
    + intros Hfail Hload.
      destruct (ends_unloadable_last E _ _ _ _ _ Hends Htrace Hfail Hload)
        as [-> Hfl].
      split; [reflexivity|]. now apply Hres.
  - destruct (configured E) eqn:Hkey.
    2:{ unfold Simple.getAiFixes in Htrace. rewrite Hkey in Htrace.
        simpl in Htrace. now destruct before. }
    destruct (simple_getAiFixes_run E content issues Hkey) as [Hrec Hcases].
    simpl in Hrec, Hcases.
    assert (Hret : returned c
                   = settled Simple.exception_message (fetch E before (sent c)))
      by (eapply recorded_inv; eassumption).
    rewrite Htrace in Hcases.
    split; [|split; [exact Hret|split]].
    + destruct Hcases as [(_ & Hmap & _)|(_ & _ & _ & _ & _ & _ & rest & Hpre)].
      * exists []. rewrite <- Hmap, !map_app, <- !app_assoc, app_nil_r.
        reflexivity.
      * exists rest. rewrite Hpre, !map_app, <- !app_assoc. reflexivity.
    + intros Hu. unfold failed_call. rewrite Hret.
      now apply undelivered_failed.
    + intros Hfail.
      destruct Hcases as [(Hall & _)|(good & c0 & Hsplit & Hall & Hc0 & Hres & _)].
      * rewrite Forall_forall in Hall.
        rewrite (Hall c) in Hfail by apply in_elt. discriminate.
      * symmetry in Hsplit.
        destruct (snoc_split _ _ _ _ _ Hsplit) as [(-> & -> & _)|Hin]; [auto|].
        rewrite Forall_forall in Hall. rewrite (Hall c Hin) in Hfail.
        discriminate.
Qed.

Lemma getAiFixes_aborts_witness :
  exists c : call,
    snd (Regions.getAiFixes (Sample.env (Sample.overloaded_at 0))
           Sample.document Sample.issues []) = [c]
    /\ fst (Regions.getAiFixes (Sample.env (Sample.overloaded_at 0))
              Sample.document Sample.issues []) = returned c.
Proof.
  eexists. split; [reflexivity|].
  destruct (getAiFixes_aborts (Sample.env (Sample.overloaded_at 0))
              Sample.document Sample.issues [] []
              {| sent := {| yamlContent :=
                              Sample.lines ["/users:"; "  summary: Users"; ""];
                            issuesChunk := [Sample.users_error] |};
                 returned :=
                   "AI fix failed: API returned status 503. Details: overloaded"
              |})
    as [Hregions _].
  destruct (Hregions eq_refl) as (_ & _ & _ & Hstop & _).
  apply Hstop. reflexivity.
Defined.

(** C1, as the claim has it, fails: the service is overloaded at the chunk of
    the region paths./users in one run and at the chunk of the region info in
    the other, and the two runs return the same string.  And a key that is
    not in the document is no failure of its own: the chunk taken out for
    "servers" has an undefined value, nothing is thrown. *)
Lemma failure_names_no_region :
  fst (Regions.getAiFixes (Sample.env (Sample.overloaded_at 0))
         Sample.document Sample.issues [])
  = fst (Regions.getAiFixes (Sample.env (Sample.overloaded_at 1))
           Sample.document Sample.issues [])
  /\ fst (Regions.getAiFixes (Sample.env (Sample.overloaded_at 0))
            Sample.document Sample.issues [])
     = "AI fix failed: API returned status 503. Details: overloaded"
  /\ map (fun c => map Regions.chunkKey (batch c))
         (snd (Regions.getAiFixes (Sample.env (Sample.overloaded_at 0))
                 Sample.document Sample.issues []))
     = [["paths./users"]]
  /\ map (fun c => map Regions.chunkKey (batch c))
         (snd (Regions.getAiFixes (Sample.env (Sample.overloaded_at 1))
                 Sample.document Sample.issues []))
     = [["paths./users"]; ["info"]]
  /\ Regions.resolves Sample.tree "servers" = false
  /\ Regions.yamlChunk Sample.tree "servers"
     = Ok (VObj [("servers", VUndefined)]).
Proof. repeat split; reflexivity. Qed.



(** ** The handler *)

Lemma yaml_validate_no_issues (E : Env)
    (getAiFixes : string -> formatted -> list call -> string * list call)
    (content stdout stderr : string) (trace : list call) :
  negb (stderr =? "") && (stdout =? "") = false ->
  formatSpectralOutput E (if negb (stdout =? "") then stdout else "[]")
    = {| warnings := []; errors := [] |} ->
  yaml_validate E getAiFixes (Some content) stdout stderr trace
    = ((200%Z, Report [] [] "No issues found. Original YAML is valid."), trace).
Proof.
  intros Hexec Hfmt. unfold yaml_validate. now rewrite Hexec, Hfmt.
Qed.

(** C3, as the code has it: when the normalizer gives no error and no warning
    the handler answers 200 with the two empty lists and the notice
    "No issues found. Original YAML is valid." where the fixed YAML would be,
    and no call of the completion service is made; the text of the document
    is not part of the answer. *)
Theorem no_issues_short_circuit (E : Env) (content stdout stderr : string)
    (trace : list call) :
  negb (stderr =? "") && (stdout =? "") = false ->
  errors (formatSpectralOutput E (if negb (stdout =? "") then stdout else "[]"))
    = [] ->
  warnings (formatSpectralOutput E (if negb (stdout =? "") then stdout else "[]"))
    = [] ->
  Simple.yaml_validate E (Some content) stdout stderr trace
    = ((200%Z, Report [] [] "No issues found. Original YAML is valid."), trace)
  /\ Regions.yaml_validate E (Some content) stdout stderr trace
     = ((200%Z, Report [] [] "No issues found. Original YAML is valid."), trace).
Proof.
  intros Hexec He Hw.
  assert (Hfmt : formatSpectralOutput E
                   (if negb (stdout =? "") then stdout else "[]")
                 = {| warnings := []; errors := [] |}).
  { destruct (formatSpectralOutput E _) as [w e]. simpl in *. now subst. }
  split; now apply yaml_validate_no_issues.
Qed.

Lemma no_issues_short_circuit_witness :
  Regions.yaml_validate (Sample.env (fun _ => Sample.echo))
    (Some Sample.document) "[]" "" []
  = ((200%Z, Report [] [] "No issues found. Original YAML is valid."), []).
Proof.
  apply (no_issues_short_circuit (Sample.env (fun _ => Sample.echo))
           Sample.document "[]" "" []); reflexivity.
Defined.

(** C3, as the claim has it, fails: with no issue the answer does not hold the
    text of the document; the field for the fixed YAML holds the notice. *)
Lemma no_issues_answer_is_not_the_document :
  exists answer,
    Regions.yaml_validate (Sample.env (fun _ => Sample.echo))
      (Some Sample.document) "[]" "" []
    = ((200%Z, Report [] [] answer), [])
    /\ answer <> Sample.document.
Proof.
  eexists. split; [reflexivity|]. discriminate.
Qed.

(** C7: what the code does with a report that cannot be read.  When the [try]
    block of [formatSpectralOutput] throws, the helper returns the structure
    it returns for an empty report, and the handler answers what it answers
    when there is no issue: 200 and "No issues found. Original YAML is
    valid.". *)
Theorem unreadable_report_passes_for_valid (E : Env)
    (content stdout stderr e : string) (trace : list call) :
  stdout <> "" ->
  attempt E stdout = Throw e ->
  formatSpectralOutput E stdout = {| warnings := []; errors := [] |}
  /\ Simple.yaml_validate E (Some content) stdout stderr trace
     = ((200%Z, Report [] [] "No issues found. Original YAML is valid."), trace)
  /\ Regions.yaml_validate E (Some content) stdout stderr trace
     = ((200%Z, Report [] [] "No issues found. Original YAML is valid."), trace).
Proof.
  intros Hout Hthrow.
  assert (Hfmt : formatSpectralOutput E stdout
                 = {| warnings := []; errors := [] |})
    by (unfold formatSpectralOutput; now rewrite Hthrow).
  split; [exact Hfmt|].
  apply String.eqb_neq in Hout.
  split; apply yaml_validate_no_issues; rewrite Hout; simpl;
    (apply andb_false_r || exact Hfmt).
Qed.

Lemma unreadable_report_passes_for_valid_witness :
  Simple.yaml_validate (Sample.env (fun _ => Sample.echo))
    (Some Sample.document) "Error: could not load the ruleset"
    "Error: could not load the ruleset" []
  = Simple.yaml_validate (Sample.env (fun _ => Sample.echo))
      (Some Sample.document) "[]" "" [].
Proof.
  destruct (unreadable_report_passes_for_valid
              (Sample.env (fun _ => Sample.echo)) Sample.document
              "Error: could not load the ruleset"
              "Error: could not load the ruleset"
              "SyntaxError: Unexpected token" [])
    as (_ & Hsimple & _).
  - discriminate.
  - reflexivity.
  - rewrite Hsimple. reflexivity.
Defined.

(** The draft with a summary does answer an error for such a report. *)
Lemma detailed_reports_unreadable (E : Env) (content stdout stderr e : string) :
  Str.trim stdout <> "" ->
  Str.trim stdout <> "[]" ->
  Detailed.attempt E (Str.trim stdout) = Throw e ->
  Detailed.yaml_validate E (Some content) stdout stderr
  = (500%Z, Detailed.ErrorDetails "Failed to parse Spectral output." (Some e)).
Proof.
  intros Hne Hnl Hthrow. unfold Detailed.yaml_validate.
  assert (Hout : (stdout =? "") = false).
  { apply String.eqb_neq. intros ->. now apply Hne. }
  rewrite Hout, andb_false_r. simpl negb. cbv iota.
  apply String.eqb_neq in Hne, Hnl. rewrite Hne, Hnl. simpl orb. cbv iota.
  unfold Detailed.formatSpectralOutput. rewrite Hthrow. reflexivity.
Qed.

(** ** Two runs of the sample *)

(** One error on a path and one warning on info: two chunks of one issue,
    the path first since the errors come first; two calls, and the document
    comes back as it was when the service changes nothing. *)
Example two_regions_two_calls :
  map (fun kb => (fst kb, List.length (snd kb)))
      (Regions.partition (errors Sample.issues ++ warnings Sample.issues)%list)
  = [("paths./users", 1); ("info", 1)]
  /\ fst (Regions.getAiFixes (Sample.env (fun _ => Sample.echo))
            Sample.document Sample.issues [])
     = Sample.document
  /\ map (fun c => map Regions.chunkKey (batch c))
         (snd (Regions.getAiFixes (Sample.env (fun _ => Sample.echo))
                 Sample.document Sample.issues []))
     = [["paths./users"]; ["info"]].
Proof. repeat split; reflexivity. Qed.

(** Seven issues on one path: a chunk of five, then a chunk of two. *)
Example seven_issues_two_chunks :
  map (fun kb => (fst kb, List.length (snd kb)))
      (Regions.partition (errors Sample.seven ++ warnings Sample.seven)%list)
  = [("paths./users", 5); ("paths./users", 2)]
  /\ map (fun c => List.length (batch c))
         (snd (Regions.getAiFixes (Sample.env (fun _ => Sample.echo))
                 Sample.document Sample.seven []))
     = [5; 2].
Proof. repeat split; reflexivity. Qed.

(** * Further properties of the three drafts *)

(** ** The fenced block of a completion *)

Section FenceFacts.

Lemma sapp_assoc (a b c : string) : (a ++ b) ++ c = a ++ b ++ c.
Proof. induction a as [|x a IH]; simpl; [reflexivity|now rewrite IH]. Qed.

Lemma sapp_nil_r (a : string) : a ++ "" = a.
Proof. induction a as [|x a IH]; simpl; [reflexivity|now rewrite IH]. Qed.

Lemma slength_app (a b : string) :
  String.length (a ++ b) = String.length a + String.length b.
Proof. induction a as [|x a IH]; simpl; [reflexivity|now rewrite IH]. Qed.

Lemma substring_all (s : string) (m : nat) :
  String.length s <= m -> substring 0 m s = s.
Proof.
  revert m. induction s as [|c s IH]; intros m H; [now destruct m|].
  destruct m as [|m]; [simpl in H; lia|].
  simpl. rewrite IH; [reflexivity|simpl in H; lia].
Qed.

Lemma substring_skip (p r : string) (m : nat) :
  String.length r <= m -> substring (String.length p) m (p ++ r) = r.
Proof.
  intros H. induction p as [|c p IH]; simpl; [now apply substring_all|exact IH].
Qed.

Lemma prefix_append (p r : string) : String.prefix p (p ++ r) = true.
Proof.
  induction p as [|c p IH]; simpl; [now destruct r|].
  destruct (ascii_dec c c); [exact IH|congruence].
Qed.

Lemma prefix_split (p s : string) :
  String.prefix p s = true -> exists r, s = p ++ r.
Proof.
  revert s. induction p as [|c p IH]; intros s H.
  - exists s. reflexivity.
  - destruct s as [|d s]; simpl in H; [discriminate|].
    destruct (ascii_dec c d) as [->|]; [|discriminate].
    destruct (IH s H) as [r ->]. exists r. reflexivity.
Qed.

Lemma cut_unfold (pat s : string) :
  Str.cut pat s =
    if String.prefix pat s
    then Some ("", substring (String.length pat) (String.length s) s)
    else match s with
         | EmptyString => None
         | String c r =>
             match Str.cut pat r with
             | Some (before, after) => Some (String c before, after)
             | None => None
             end
         end.
Proof. destruct s; reflexivity. Qed.

Lemma cut_sound (pat s a b : string) :
  Str.cut pat s = Some (a, b) -> s = a ++ pat ++ b.
Proof.
  revert a b. induction s as [|c s IH]; intros a b; rewrite cut_unfold.
  - destruct pat; simpl; [|discriminate].
    intros H. injection H as <- <-. reflexivity.
  - destruct (String.prefix pat (String c s)) eqn:Hp.
    + destruct (prefix_split _ _ Hp) as [r Hr]. rewrite Hr.
      rewrite substring_skip by (rewrite slength_app; lia).
      intros H. injection H as <- <-. reflexivity.
    + destruct (Str.cut pat s) as [[a0 b0]|]; [|discriminate].
      intros H. injection H as <- <-. simpl. now rewrite <- (IH a0 b0 eq_refl).
Qed.

Lemma cut_first (pat s a b : string) :
  Str.cut pat s = Some (a, b) ->
  forall a' b', s = a' ++ pat ++ b' -> String.length a <= String.length a'.
Proof.
  revert a b. induction s as [|c s IH]; intros a b; rewrite cut_unfold.
  - destruct (String.prefix pat ""); [|discriminate].
    intros H. injection H as <- <-. simpl. lia.
  - destruct (String.prefix pat (String c s)) eqn:Hp.
    + intros H. injection H as <- <-. simpl. lia.
    + destruct (Str.cut pat s) as [[a0 b0]|]; [|discriminate].
      intros H. injection H as <- <-. intros a' b' Hs.
      destruct a' as [|c' a'].
      * simpl in Hs. rewrite Hs, prefix_append in Hp. discriminate.
      * simpl in Hs. injection Hs as _ Hs. simpl.
        specialize (IH a0 b0 eq_refl a' b' Hs). lia.
Qed.

Lemma cut_complete (pat s : string) :
  Str.cut pat s = None -> ~ occurs pat s.
Proof.
  induction s as [|c s IH]; rewrite cut_unfold.
  - destruct (String.prefix pat "") eqn:Hp; [discriminate|].
    intros _ (a & b & H). destruct a; [|discriminate].
    simpl in H. rewrite H, prefix_append in Hp. discriminate.
  - destruct (String.prefix pat (String c s)) eqn:Hp; [discriminate|].
    destruct (Str.cut pat s) as [[a0 b0]|]; [discriminate|].
    intros _ (a & b & H). destruct a as [|c' a].
    + simpl in H. rewrite H, prefix_append in Hp. discriminate.
    + simpl in H. injection H as _ H. apply IH; [reflexivity|].
      exists a, b. exact H.
Qed.

Lemma sapp_split (a b c d : string) :
  a ++ b = c ++ d -> String.length a <= String.length c ->
  exists z, c = a ++ z /\ b = z ++ d.
Proof.
  revert c. induction a as [|x a IH]; intros c H Hlen.
  - exists c. auto.
  - destruct c as [|y c]; [simpl in Hlen; lia|].
    simpl in H. injection H as -> H.
    destruct (IH c H) as (z & -> & ->); [simpl in Hlen; lia|].
    exists z. auto.
Qed.

End FenceFacts.

(** What the helper takes for the corrected YAML in a completion.  When the
    text holds an opening fence with a closing fence after it, the block is
    what stands between the first opening fence of the text and the first
    closing fence after it, so the block holds no closing fence; when the text
    holds no such pair, there is no block (and the helper returns the trimmed
    text). *)
Theorem yamlMatch_block (t : string) :
  match yamlMatch t with
  | Some block =>
      (exists before after,
          t = before ++ opening ++ block ++ closing ++ after
          /\ (forall x y,
                 t = x ++ opening ++ y ->
                 String.length before <= String.length x)
          /\ (forall x y,
                 block ++ closing ++ after = x ++ closing ++ y ->
                 String.length block <= String.length x))
      /\ ~ occurs closing block
  | None =>
      ~ exists before block after,
          t = before ++ opening ++ block ++ closing ++ after
  end.
Proof.
  unfold yamlMatch. fold opening. fold closing.
  destruct (Str.cut opening t) as [[before rest]|] eqn:Hopen.
  - destruct (Str.cut closing rest) as [[block after]|] eqn:Hclose.
    + split.
      * exists before, after. split; [|split].
        -- rewrite (cut_sound _ _ _ _ Hopen), (cut_sound _ _ _ _ Hclose).
           reflexivity.
        -- apply (cut_first _ _ _ _ Hopen).
        -- rewrite <- (cut_sound _ _ _ _ Hclose).
           apply (cut_first _ _ _ _ Hclose).
      * intros (x & y & Hblock).
        pose proof (cut_first _ _ _ _ Hclose x (y ++ closing ++ after)) as Hlen.
        rewrite (cut_sound _ _ _ _ Hclose), Hblock in Hlen.
        rewrite !sapp_assoc in Hlen. specialize (Hlen eq_refl).
        rewrite !slength_app in Hlen. unfold closing in Hlen. simpl in Hlen. lia.
    + intros (b0 & block & after & Ht).
      apply (cut_complete _ _ Hclose).
      pose proof (cut_first _ _ _ _ Hopen b0 _ Ht) as Hlen.
      pose proof (cut_sound _ _ _ _ Hopen) as Hsound.
      rewrite Ht in Hsound. symmetry in Hsound.
      destruct (sapp_split _ _ _ _ Hsound Hlen) as (z & Hb0 & Hrest).
      rewrite <- sapp_assoc in Hrest.
      assert (Hz : String.length opening <= String.length (z ++ opening))
        by (rewrite slength_app; lia).
      destruct (sapp_split _ _ _ _ Hrest Hz) as (w & _ & ->).
      exists (w ++ block), after. now rewrite sapp_assoc.
  - intros (b0 & block & after & Ht).
    apply (cut_complete _ _ Hopen). exists b0, (block ++ closing ++ after).
    exact Ht.
Qed.
(** ** The lists of formatSpectralOutput *)

Section NormalizerFacts.

Lemma get_defined (item : value) (k : string) :
  JS.nullish item = false -> exists v, JS.get item k = Ok v.
Proof.
  destruct item; simpl; try discriminate; intros _; eauto.
  - destruct (k =? "length"); [eauto|]. destruct (JS.array_index k); eauto.
  - destruct (k =? "length"); [eauto|]. destruct (JS.array_index k); eauto.
Qed.

Lemma get_throws (item : value) (k e : string) :
  JS.get item k = Throw e -> JS.nullish item = true.
Proof.
  destruct (JS.nullish item) eqn:Hn; [reflexivity|].
  destruct (get_defined item k Hn) as [v Hv]. congruence.
Qed.







End NormalizerFacts.



(** ** The text of a completion *)

(** [result.choices?.[0]?.message?.content] throws for a body that is [null]
    (or [undefined]) and for no other body: whatever else the body is, a
    missing link of the chain gives [undefined], which the helper answers with
    its sentence on the missing YAML. *)
Theorem content_throws_on_null_only (result : value) :
  (JS.nullish result = true -> exists e, content result = Throw e)
  /\ (JS.nullish result = false -> exists text, content result = Ok text)
  /\ forall message r,
       ok r = true -> json r = Ok result -> JS.nullish result = false ->
       (forall text, content result = Ok text -> JS.truthy text = false) ->
       settled message (Responded r)
       = "AI fix failed: Could not extract corrected YAML from AI response.".
Proof.
  assert (Hopt : forall v k, exists x, JS.get_opt v k = Ok x).
  { intros v k. unfold JS.get_opt. destruct (JS.nullish v) eqn:Hn; [eauto|].
    apply get_defined, Hn. }
  split; [|split].
  - destruct result; simpl; try discriminate; intros _; unfold content; simpl; eauto.
  - intros Hn. unfold content.
    destruct (get_defined result "choices" Hn) as [c ->]. simpl.
    destruct (Hopt c "0") as [f ->]. simpl.
    destruct (Hopt f "message") as [m ->]. simpl.
    apply Hopt.
  - intros message r Hok Hjson Hn Hfalsy.
    unfold settled, answer. rewrite Hok, Hjson. simpl.
    destruct (content result) as [text|e] eqn:Hc.
    + simpl. rewrite (Hfalsy text eq_refl). reflexivity.
    + exfalso. unfold content in Hc.
      destruct (get_defined result "choices" Hn) as [c Hget].
      rewrite Hget in Hc. simpl in Hc.
      destruct (Hopt c "0") as [f Hf]. rewrite Hf in Hc. simpl in Hc.
      destruct (Hopt f "message") as [m Hm]. rewrite Hm in Hc. simpl in Hc.
      destruct (Hopt m "content") as [x Hx]. congruence.
Qed.

Lemma content_throws_on_null_only_witness :
  settled Simple.exception_message
    (Responded {| ok := true; status := 200; text := Throw "body used already";
                  json := Ok (VObj [("choices", VArr [])]) |})
  = "AI fix failed: Could not extract corrected YAML from AI response.".
Proof.
  destruct (content_throws_on_null_only (VObj [("choices", VArr [])]))
    as (_ & _ & Hhelper).
  apply Hhelper; try reflexivity.
  intros text H. injection H as <-. reflexivity.
Defined.

(** ** White space *)

Section TrimFacts.

Lemma trimStart_blank (s : string) : blank s = true -> Str.trimStart s = "".
Proof.
  induction s as [|c s IH]; [reflexivity|].
  cbn [blank Str.trimStart].
  intros H. apply andb_true_iff in H as [Hc Hs]. rewrite Hc. auto.
Qed.

Lemma trim_blank (s : string) : blank s = true -> Str.trim s = "".
Proof.
  intros H. unfold Str.trim. now rewrite (trimStart_blank s H).
Qed.

End TrimFacts.

(** ** The summary of the draft with labels *)

Section SummaryFacts.
Variable E : Env.

Lemma labelled_app (label : string) (a b : list Detailed.issue) :
  labelled label (a ++ b)%list = labelled label a + labelled label b.
Proof. unfold labelled. now rewrite filter_app, length_app. Qed.

Lemma insert_permutation (x : Detailed.issue) (l : list Detailed.issue) :
  Permutation (Detailed.insert x l) (x :: l).
Proof.
  induction l as [|y r IH]; simpl; [reflexivity|].
  destruct (Detailed.keeps_order x y); [reflexivity|].
  rewrite IH. apply perm_swap.
Qed.

Lemma sort_permutation (l : list Detailed.issue) :
  Permutation (Detailed.sort l) l.
Proof.
  induction l as [|x r IH]; simpl; [reflexivity|].
  rewrite insert_permutation. now constructor.
Qed.

Lemma labelled_permutation (label : string) (a b : list Detailed.issue) :
  Permutation a b -> labelled label a = labelled label b.
Proof.
  intros H. unfold labelled. apply Permutation_length.
  induction H as [|x l l' _ IH|x y l|l l' l'' _ IH1 _ IH2]; simpl.
  - reflexivity.
  - destruct (Detailed.severity x =? label); [now constructor|exact IH].
  - destruct (Detailed.severity x =? label), (Detailed.severity y =? label);
      try reflexivity. apply perm_swap.
  - now transitivity (filter (fun i => Detailed.severity i =? label) l').
Qed.

Lemma count_fields (f : Detailed.formatted) (new : Detailed.issue) :
  Detailed.errorCount (Detailed.count f new)
  = Detailed.errorCount f + labelled "error" [new]
  /\ Detailed.warningCount (Detailed.count f new)
     = Detailed.warningCount f + labelled "warn" [new].
Proof.
  unfold labelled. simpl.
  destruct (String.eqb_spec (Detailed.severity new) "error") as [->|Hne]; simpl;
    [lia|].
  destruct (Detailed.severity new =? "warn"); simpl; lia.
Qed.

Lemma forEach_counts (items : list value) :
  forall f f',
    Detailed.forEach items f = Ok f' ->
    exists news,
      Forall2 (fun item new => Detailed.formatItem item = Ok new) items news
      /\ Detailed.issues f' = (Detailed.issues f ++ news)%list
      /\ Detailed.errorCount f'
         = Detailed.errorCount f + labelled "error" news
      /\ Detailed.warningCount f'
         = Detailed.warningCount f + labelled "warn" news
      /\ Detailed.status f' = Detailed.status f
      /\ Detailed.summary_message f' = Detailed.summary_message f
      /\ Detailed.rawError f' = Detailed.rawError f.
Proof.
  induction items as [|item rest IH]; intros f f' H; simpl in H.
  - injection H as <-. exists []. rewrite app_nil_r.
    repeat split; auto; unfold labelled; simpl; lia.
  - destruct (Detailed.formatItem item) as [new|e] eqn:Hitem; simpl in H;
      [|discriminate].
    destruct (IH _ _ H) as (news & Hall & Hiss & He & Hw & Hs & Hm & Hr).
    destruct (count_fields f new) as [He1 Hw1].
    exists (new :: news). split; [now constructor|].
    split; [rewrite Hiss; simpl; now rewrite <- app_assoc|].
    change (new :: news) with ([new] ++ news)%list. rewrite !labelled_app.
    repeat split; try assumption; lia.
Qed.

Lemma attempt_array (report : string) (items : list value) (f : Detailed.formatted) :
  JSON_parse E report = Ok (VArr items) ->
  Detailed.attempt E report = Ok f ->
  exists f0,
    Detailed.forEach items Detailed.initial = Ok f0
    /\ f = Detailed.finish f0 (VNum (Z.of_nat (List.length items))).
Proof.
  intros Hparse. unfold Detailed.attempt. rewrite Hparse. simpl.
  destruct (Detailed.forEach items Detailed.initial) as [f0|e]; simpl;
    [|discriminate].
  intros H. injection H as <-. eauto.
Qed.

End SummaryFacts.

(** The summary agrees with the list it comes with.  For a report that
    parses to an array and of which every item can be formatted, the list has
    one issue for each item, [totalIssues] is their number, [errorCount] and
    [warningCount] are the numbers of issues labelled error and warn in the
    list, and the status is invalid when there is an error, valid_with_warnings
    when there is none but a warning, and valid otherwise: it is never the
    status error of the [catch] clause. *)
Theorem summary_counts (E : Env) (report : string) (items : list value)
    (f : Detailed.formatted) :
  JSON_parse E report = Ok (VArr items) ->
  Detailed.attempt E report = Ok f ->
  List.length (Detailed.issues f) = List.length items
  /\ Detailed.totalIssues f = VNum (Z.of_nat (List.length items))
  /\ Detailed.errorCount f = labelled "error" (Detailed.issues f)
  /\ Detailed.warningCount f = labelled "warn" (Detailed.issues f)
  /\ Detailed.status f =
       (if (0 <? labelled "error" (Detailed.issues f))%nat then "invalid"
        else if (0 <? labelled "warn" (Detailed.issues f))%nat
             then "valid_with_warnings"
             else "valid").
Proof.
  intros Hparse Hattempt.
  destruct (attempt_array E report items f Hparse Hattempt) as (f0 & Hfor & ->).
  destruct (forEach_counts items _ _ Hfor)
    as (news & Hall & Hiss & He & Hw & Hs & _).
  simpl in Hiss, He, Hw, Hs.
  assert (Hperm : Permutation (Detailed.sort (Detailed.issues f0)) news)
    by (rewrite Hiss; apply sort_permutation).
  simpl.
  rewrite (labelled_permutation "error" _ _ Hperm).
  rewrite (labelled_permutation "warn" _ _ Hperm).
  rewrite (Permutation_length Hperm), He, Hw, Hs.
  repeat split; try reflexivity.
  symmetry. exact (Forall2_length Hall).
Qed.

Lemma summary_counts_witness :
  exists f,
    Detailed.attempt (reporting [Sample.raw_warning; Sample.raw_warning]) "[...]"
      = Ok f
    /\ Detailed.errorCount f = 0
    /\ Detailed.warningCount f = 2
    /\ Detailed.status f = "valid_with_warnings".
Proof.
  eexists. split; [reflexivity|].
  destruct (summary_counts
              (reporting [Sample.raw_warning; Sample.raw_warning]) "[...]"
              [Sample.raw_warning; Sample.raw_warning] _ eq_refl eq_refl)
    as (_ & _ & He & Hw & Hs).
  rewrite He, Hw, Hs. repeat split; reflexivity.
Defined.

(** ** The order of the issues *)

Section SortFacts.

Lemma keeps_order_le (x y : Detailed.issue) (a b : Z) :
  line_of x = Some a -> line_of y = Some b ->
  Detailed.keeps_order x y = (a <=? b)%Z.
Proof.
  unfold line_of, Detailed.keeps_order. intros -> ->.
  destruct (Z.leb_spec (a - b) 0), (Z.leb_spec a b); (reflexivity || lia).
Qed.

Lemma insert_sorted (x : Detailed.issue) (l : list Detailed.issue) :
  line_of x <> None ->
  Forall (fun i => line_of i <> None) l ->
  Sorted line_le l -> Sorted line_le (Detailed.insert x l).
Proof.
  intros Hx Hall Hs. induction l as [|y r IH]; simpl.
  - repeat constructor.
  - apply Forall_cons_iff in Hall as [Hy Hr].
    destruct (line_of x) as [a|] eqn:Ha; [|congruence].
    destruct (line_of y) as [b|] eqn:Hb; [|congruence].
    rewrite (keeps_order_le x y a b Ha Hb).
    destruct (Z.leb_spec a b) as [Hle|Hgt].
    + constructor; [assumption|]. constructor.
      unfold line_le. now rewrite Ha, Hb.
    + inversion Hs as [|? ? Hsr Hhd]; subst.
      constructor; [now apply IH|].
      destruct r as [|z r']; simpl.
      * constructor. unfold line_le. rewrite Ha, Hb. lia.
      * destruct (Detailed.keeps_order x z).
        -- constructor. unfold line_le. rewrite Ha, Hb. lia.
        -- inversion Hhd; subst. now constructor.
Qed.

Lemma sort_sorted (l : list Detailed.issue) :
  Forall (fun i => line_of i <> None) l -> Sorted line_le (Detailed.sort l).
Proof.
  induction l as [|x r IH]; intros Hall; simpl; [constructor|].
  apply Forall_cons_iff in Hall as [Hx Hr].
  apply insert_sorted; [assumption| |now apply IH].
  eapply Permutation_Forall; [|exact Hr].
  symmetry. apply sort_permutation.
Qed.

Lemma insert_on_line (n : Z) (x : Detailed.issue) (l : list Detailed.issue) :
  filter (on_line n) (Detailed.insert x l) = filter (on_line n) (x :: l).
Proof.
  induction l as [|y r IH]; simpl; [reflexivity|].
  destruct (Detailed.keeps_order x y) eqn:Hk; [reflexivity|].
  simpl. simpl in IH. rewrite IH.
  destruct (on_line n x) eqn:Hx; [|reflexivity].
  destruct (on_line n y) eqn:Hy; [|reflexivity].
  exfalso. unfold on_line in Hx, Hy.
  destruct (line_of x) as [a|] eqn:Ha; [|discriminate].
  destruct (line_of y) as [b|] eqn:Hb; [|discriminate].
  apply Z.eqb_eq in Hx, Hy. subst.
  rewrite (keeps_order_le x y n n Ha Hb) in Hk.
  rewrite Z.leb_refl in Hk. discriminate.
Qed.

Lemma sort_on_line (n : Z) (l : list Detailed.issue) :
  filter (on_line n) (Detailed.sort l) = filter (on_line n) l.
Proof.
  induction l as [|x r IH]; simpl; [reflexivity|].
  rewrite insert_on_line. simpl. now rewrite IH.
Qed.

End SortFacts.

(** The issues come out in the order of their lines, and the sort is stable.
    For a report that parses to an array, the issues of the result are the
    issues the items of the report give, rearranged.  When each of them has a
    number for its line, each issue is on a line at most that of the next
    one, and the issues on one line keep the order of the report. *)
Theorem issues_sorted_by_line (E : Env) (report : string) (items : list value)
    (f : Detailed.formatted) :
  JSON_parse E report = Ok (VArr items) ->
  Detailed.attempt E report = Ok f ->
  exists news,
    Forall2 (fun item new => Detailed.formatItem item = Ok new) items news
    /\ Permutation (Detailed.issues f) news
    /\ (Forall (fun i => line_of i <> None) (Detailed.issues f) ->
        Sorted line_le (Detailed.issues f)
        /\ forall n,
             filter (on_line n) (Detailed.issues f) = filter (on_line n) news).
Proof.
  intros Hparse Hattempt.
  destruct (attempt_array E report items f Hparse Hattempt) as (f0 & Hfor & ->).
  destruct (forEach_counts items _ _ Hfor) as (news & Hall & Hiss & _).
  simpl in Hiss. simpl. rewrite Hiss.
  exists news. split; [assumption|]. split; [apply sort_permutation|].
  intros Hnum. split.
  - apply sort_sorted.
    eapply Permutation_Forall; [|exact Hnum]. apply sort_permutation.
  - intros n. apply sort_on_line.
Qed.

Lemma issues_sorted_by_line_witness :
  exists f,
    Detailed.attempt (reporting [Sample.raw_warning; raw_error]) "[...]" = Ok f
    /\ map Detailed.severity (Detailed.issues f) = ["error"; "warn"]
    /\ Sorted line_le (Detailed.issues f).
Proof.
  eexists. split; [reflexivity|]. split; [reflexivity|].
  destruct (issues_sorted_by_line
              (reporting [Sample.raw_warning; raw_error]) "[...]"
              [Sample.raw_warning; raw_error] _ eq_refl eq_refl)
    as (news & _ & _ & Hsorted).
  apply Hsorted. repeat constructor; discriminate.
Defined.

(** ** The answers of the draft with a summary *)

Section AnswerFacts.
Variable E : Env.

Lemma attempt_status (report : string) (f : Detailed.formatted) :
  Detailed.attempt E report = Ok f ->
  Detailed.status f =
    (if (0 <? Detailed.errorCount f)%nat then "invalid"
     else if (0 <? Detailed.warningCount f)%nat then "valid_with_warnings"
     else "valid").
Proof.
  unfold Detailed.attempt. intros Hatt.
  destruct (JSON_parse E report) as [results|]; simpl in Hatt; [|discriminate].
  destruct (JS.iterate results) as [items|]; simpl in Hatt; [|discriminate].
  destruct (Detailed.forEach items Detailed.initial) as [f0|] eqn:Hfor;
    simpl in Hatt; [|discriminate].
  destruct (JS.get results "length") as [total|]; simpl in Hatt;
    [|discriminate].
  injection Hatt as <-.
  destruct (forEach_counts items _ _ Hfor) as (_ & _ & _ & _ & _ & Hs & _).
  simpl. now rewrite Hs.
Qed.

End AnswerFacts.

(** The status code follows the report.  When what spectral wrote, trimmed,
    is neither empty nor the empty array, the handler answers 500 with the
    sentence on the report that cannot be parsed if the report cannot be
    formatted, 422 with the summary if the summary counts an error, and 200
    with the summary otherwise. *)
Theorem detailed_status_codes (E : Env) (content stdout stderr : string) :
  Str.trim stdout <> "" ->
  Str.trim stdout <> "[]" ->
  match Detailed.attempt E (Str.trim stdout) with
  | Throw _ =>
      exists details,
        Detailed.yaml_validate E (Some content) stdout stderr
        = (500%Z,
           Detailed.ErrorDetails "Failed to parse Spectral output." details)
  | Ok f =>
      Detailed.yaml_validate E (Some content) stdout stderr
      = (if (0 <? Detailed.errorCount f)%nat then 422%Z else 200%Z,
         Detailed.Report f)
  end.
Proof.
  intros Hne Hnot.
  assert (Hout : (stdout =? "") = false).
  { apply String.eqb_neq. intros ->. now apply Hne. }
  unfold Detailed.yaml_validate.
  rewrite Hout, andb_false_r. simpl negb. cbv iota.
  apply String.eqb_neq in Hne, Hnot. rewrite Hne, Hnot. simpl orb. cbv iota.
  unfold Detailed.formatSpectralOutput.
  destruct (Detailed.attempt E (Str.trim stdout)) as [f|e] eqn:Hatt;
    [|eexists; reflexivity].
  rewrite (attempt_status E _ _ Hatt).
  destruct (0 <? Detailed.errorCount f)%nat; [reflexivity|].
  now destruct (0 <? Detailed.warningCount f)%nat.
Qed.

Lemma detailed_status_codes_witness :
  Str.trim nbsp_report = "[...]"
  /\ fst (Detailed.yaml_validate (reporting [Sample.raw_warning; raw_error])
            (Some Sample.document) nbsp_report "") = 422%Z.
Proof.
  split; [reflexivity|].
  assert (Hne : Str.trim nbsp_report <> "") by (vm_compute; discriminate).
  assert (Hnot : Str.trim nbsp_report <> "[]") by (vm_compute; discriminate).
  pose proof (detailed_status_codes (reporting [Sample.raw_warning; raw_error])
                Sample.document nbsp_report "" Hne Hnot) as H.
  exact (f_equal fst H).
Defined.

(** A report of white space only, or none at all with nothing on the error
    stream either, is answered like the empty array: 200 and the notice that
    the file is valid, without parsing anything. *)
Theorem blank_report_is_valid (E : Env) (content stdout stderr : string) :
  blank stdout = true ->
  stdout <> "" \/ stderr = "" ->
  Detailed.yaml_validate E (Some content) stdout stderr
  = (200%Z, Detailed.Message "✅ YAML is valid!").
Proof.
  intros Hblank Hcase. unfold Detailed.yaml_validate.
  apply trim_blank in Hblank.
  destruct (String.eqb_spec stdout "") as [->|Hne].
  - destruct Hcase as [H| ->]; [congruence|]. reflexivity.
  - rewrite andb_false_r. simpl negb. cbv iota. rewrite Hblank. reflexivity.
Qed.

Lemma blank_report_is_valid_witness :
  Detailed.yaml_validate (Sample.env (fun _ => Sample.echo)) (Some Sample.document) (" " ++ Str.nl) "warning"
  = (200%Z, Detailed.Message "✅ YAML is valid!").
Proof.
  apply blank_report_is_valid; [reflexivity|left; discriminate].
Defined.

(** ** The calls of index.js: what they carry and how many they are *)

Section ChainFacts.
Variable E : Env.

Lemma iterations_chained (fuel : nat) :
  forall allIssues currentYaml trace0 result trace,
    Simple.iterations E fuel allIssues currentYaml trace0 = (result, trace) ->
    exists new,
      trace = (trace0 ++ new)%list
      /\ chained currentYaml new
      /\ result = last (map returned new) currentYaml.
Proof.
  induction fuel as [|fuel IH]; intros allIssues currentYaml trace0 result trace
    Hrun; cbn [Simple.iterations] in Hrun.
  - injection Hrun as <- <-. exists []. rewrite app_nil_r. now repeat split.
  - destruct (0 <? List.length allIssues)%nat.
    + destruct (callAiWithChunk_spec E Simple.exception_message currentYaml
                  (firstn Simple.CHUNK_SIZE allIssues) trace0)
        as (c & Hcall & Hsent & _).
      unfold Simple.callAiWithChunk in Hrun. rewrite Hcall in Hrun.
      destruct (Str.startsWith (returned c) "AI fix failed:").
      * injection Hrun as <- <-. exists [c].
        split; [reflexivity|]. split; [|reflexivity].
        simpl. now rewrite Hsent.
      * apply IH in Hrun as (new & -> & Hchain & ->).
        exists (c :: new). rewrite <- app_assoc.
        split; [reflexivity|]. split.
        -- simpl. now rewrite Hsent.
        -- cbn [map]. now rewrite last_cons.
    + injection Hrun as <- <-. exists []. rewrite app_nil_r. now repeat split.
Qed.

Lemma spliced_full {A : Type} (size fuel : nat) :
  forall (l : list A) before chunk after,
    spliced size fuel l = (before ++ chunk :: after)%list ->
    after <> [] ->
    List.length chunk = size.
Proof.
  induction fuel as [|fuel IH]; intros l before chunk after H Hafter;
    cbn [spliced] in H.
  - now destruct before.
  - destruct (0 <? List.length l)%nat; [|now destruct before].
    destruct before as [|b before']; simpl in H.
    + injection H as <- Hrest.
      destruct (Nat.le_gt_cases size (List.length l)) as [Hle|Hlt].
      * rewrite length_firstn. lia.
      * rewrite skipn_all2 in Hrest by lia.
        destruct fuel; simpl in Hrest; congruence.
    + injection H as _ Hrest. eapply IH; eassumption.
Qed.

Lemma spliced_length {A : Type} (size fuel : nat) :
  forall l : list A,
    0 < size ->
    List.length l <= fuel ->
    List.length l <= List.length (spliced size fuel l) * size
    /\ List.length (spliced size fuel l) * size < List.length l + size.
Proof.
  induction fuel as [|fuel IH]; intros l Hsize Hlen.
  - destruct l; simpl in *; lia.
  - destruct l as [|x r]; [simpl; lia|].
    cbn [spliced]. change (0 <? List.length (x :: r))%nat with true. cbv iota.
    assert (Hskip : List.length (skipn size (x :: r)) <= fuel)
      by (rewrite length_skipn; simpl List.length in *; lia).
    destruct (IH (skipn size (x :: r)) Hsize Hskip) as [Hlow Hhigh].
    rewrite length_skipn in Hlow, Hhigh.
    cbn [List.length] in *.
    destruct (Nat.le_gt_cases size (S (List.length r))) as [Hle|Hlt].
    + lia.
    + assert (Hnone : skipn size (x :: r) = []) by (apply skipn_all2; simpl; lia).
      rewrite Hnone. destruct fuel; simpl; lia.
Qed.

Lemma ceiling_five (n k : nat) :
  n <= k * 5 -> k * 5 < n + 5 -> k = (n + 4) / 5.
Proof.
  intros Hlow Hhigh.
  apply Nat.div_unique with (r := n + 4 - k * 5); lia.
Qed.

Lemma prefix_length {A B : Type} (f : A -> B) (l : list A) (whole rest : list B) :
  whole = (map f l ++ rest)%list -> List.length l <= List.length whole.
Proof. intros ->. rewrite length_app, length_map. lia. Qed.

End ChainFacts.

(** The output of one iteration is the input of the next.  The first call
    carries the document as uploaded, each later call the string the call
    before it returned, and [getAiFixes] returns what the last call returned:
    the document as uploaded when there was no call at all, the notice that
    the fix was skipped when no key is configured. *)
Theorem answers_feed_the_next_call (E : Env) (content : string)
    (issues : formatted) :
  chained content (snd (Simple.getAiFixes E content issues []))
  /\ fst (Simple.getAiFixes E content issues [])
     = if configured E
       then last (map returned (snd (Simple.getAiFixes E content issues [])))
                 content
       else "AI fix skipped: GROQ_API_KEY not configured on the server.".
Proof.
  unfold Simple.getAiFixes. destruct (configured E); simpl negb; cbv iota.
  - destruct (Simple.iterations E _ _ content []) as [result trace] eqn:Hrun.
    apply iterations_chained in Hrun as (new & -> & Hchain & ->).
    simpl. auto.
  - simpl. auto.
Qed.

(** Five issues a call.  index.js makes at most as many calls as the list of
    issues has chunks, which is its length divided by five, rounded up; it
    makes exactly that many when it is configured and its result is not a
    failure.  Every chunk but the last one has exactly five issues. *)
Theorem five_issues_a_call (E : Env) (content : string) (issues : formatted) :
  let allIssues := (errors issues ++ warnings issues)%list in
  let run := Simple.getAiFixes E content issues [] in
  List.length (Simple.partition allIssues) = (List.length allIssues + 4) / 5
  /\ List.length (snd run) <= (List.length allIssues + 4) / 5
  /\ (configured E = true ->
      Str.startsWith (fst run) "AI fix failed:" = false ->
      List.length (snd run) = (List.length allIssues + 4) / 5)
  /\ (forall before chunk after,
         Simple.partition allIssues = (before ++ chunk :: after)%list ->
         after <> [] ->
         List.length chunk = 5).
Proof.
  intros allIssues run.
  assert (Hcount : List.length (Simple.partition allIssues)
                   = (List.length allIssues + 4) / 5).
  { destruct (spliced_length Simple.CHUNK_SIZE (List.length allIssues) allIssues)
      as [Hlow Hhigh]; [unfold Simple.CHUNK_SIZE; lia|apply Nat.le_refl|].
    apply ceiling_five; assumption. }
  split; [exact Hcount|]. rewrite <- Hcount.
  split; [|split].
  - destruct (configured E) eqn:Hkey.
    + destruct (simple_getAiFixes_run E content issues Hkey) as [_ Hcases].
      fold allIssues run in Hcases.
      destruct Hcases as [(_ & Hmap & _)|(_ & _ & _ & _ & _ & _ & rest & Hpre)].
      * rewrite <- Hmap, length_map. apply Nat.le_refl.
      * eapply prefix_length. exact Hpre.
    + subst run. unfold Simple.getAiFixes. rewrite Hkey. simpl. lia.
  - intros Hkey Hgood.
    destruct (simple_getAiFixes_run E content issues Hkey) as [_ Hcases].
    fold allIssues run in Hcases.
    destruct Hcases as [(_ & Hmap & _)|(_ & c & _ & _ & Hc & Hres & _)].
    + now rewrite <- Hmap, length_map.
    + unfold failed_call in Hc. rewrite <- Hres in Hc. congruence.
  - intros before chunk after Hsplit Hafter.
    eapply (spliced_full Simple.CHUNK_SIZE); eassumption.
Qed.

Lemma five_issues_a_call_witness :
  List.length
    (snd (Simple.getAiFixes (Sample.env (fun _ => Sample.echo))
            Sample.document Sample.seven [])) = 2
  /\ map (@List.length Issue)
         (Simple.partition (errors Sample.seven ++ warnings Sample.seven)%list)
     = [5; 2].
Proof.
  split; [|reflexivity].
  destruct (five_issues_a_call (Sample.env (fun _ => Sample.echo))
              Sample.document Sample.seven) as (_ & _ & Hexact & _).
  apply Hexact; reflexivity.
Defined.

(** ** The key of a region, taken apart again *)

Section KeyFacts.

Lemma split_segments (sep : ascii) (s : string) :
  Forall (fun p => Str.has sep p = false) (Str.split sep s).
Proof.
  induction s as [|c r IH]; simpl.
  - now repeat constructor.
  - destruct (Ascii.eqb c sep) eqn:Hc.
    + now constructor.
    + destruct (Str.split sep r) as [|h t].
      * repeat constructor. simpl. now rewrite Hc.
      * apply Forall_cons_iff in IH as [Hh Ht].
        constructor; [|assumption]. simpl. now rewrite Hc.
Qed.

Lemma split_two (sep : ascii) (a b : string) :
  Str.has sep a = false -> Str.has sep b = false ->
  Str.split sep (a ++ String sep b) = [a; b].
Proof.
  intros Ha Hb. rewrite split_append by assumption.
  now rewrite split_without.
Qed.

Lemma yamlChunk_of_entry (main paths : value) (entry : string) :
  Str.has "." entry = false ->
  JS.get main "paths" = Ok paths ->
  Regions.yamlChunk main ("paths." ++ entry)
  = (v <- JS.get paths entry ;; Ok (VObj [(entry, v)])).
Proof.
  intros Hentry Hpaths. unfold Regions.yamlChunk.
  change ("paths." ++ entry) with ("paths" ++ String "." entry).
  rewrite split_two by (assumption || reflexivity).
  simpl. now rewrite Hpaths.
Qed.

End KeyFacts.

(** The loop takes a key apart as the reducer put it together.  The key of an
    issue is the first segment of its element, or "paths." and the second
    segment when the first one is "paths" and there is a second one; split at
    the dots again, as the loop does, it gives that one part, or the two parts
    "paths" and the second segment.  So the loop reads an entry of [paths]
    exactly for the keys the reducer made of two segments. *)
Theorem chunkKey_splits_back (i : Issue) :
  exists first rest,
    Str.split "." (element i) = first :: rest
    /\ Regions.chunkKey i
       = match rest with
         | second :: _ => if first =? "paths" then "paths." ++ second else first
         | [] => first
         end
    /\ Str.split "." (Regions.chunkKey i)
       = match rest with
         | second :: _ => if first =? "paths" then ["paths"; second] else [first]
         | [] => [first]
         end.
Proof.
  pose proof (split_segments "." (element i)) as Hsegments.
  destruct (Str.split "." (element i)) as [|first rest] eqn:Hsplit.
  { destruct (element i) as [|c r]; simpl in Hsplit; [discriminate|].
    destruct (Ascii.eqb c "."); [discriminate|].
    destruct (Str.split "." r); discriminate. }
  exists first, rest. split; [reflexivity|].
  rewrite (chunkKey_of_parts i (first :: rest) Hsplit).
  apply Forall_cons_iff in Hsegments as [Hfirst Hrest].
  destruct rest as [|second rest'].
  - split; [reflexivity|]. now apply split_without.
  - apply Forall_cons_iff in Hrest as [Hsecond _].
    destruct (String.eqb_spec first "paths") as [->|Hne].
    + split; [reflexivity|].
      change ("paths" ++ "." ++ second) with ("paths" ++ String "." second).
      now apply split_two.
    + split; [reflexivity|]. now apply split_without.
Qed.

(** A path whose name has a dot in it is cut at the dot.  For an issue on
    the entry [a.b] of [paths], where [a] has no dot, the key is "paths." and
    [a]; the chunk taken out of the document for it is the entry [a] of
    [paths], which is undefined unless the document happens to have a path of
    that name, and not the entry [a.b] the issue is about. *)
Theorem dotted_path_entry_is_cut (item : value) (a b : string)
    (more : list value) (new : Issue) (main paths : value) :
  JS.get item "path"
    = Ok (VArr (VStr "paths" :: VStr (a ++ "." ++ b) :: more)) ->
  newItem item = Ok new ->
  Str.has "." a = false ->
  JS.get main "paths" = Ok paths ->
  Regions.chunkKey new = "paths." ++ a
  /\ Regions.yamlChunk main (Regions.chunkKey new)
     = (v <- JS.get paths a ;; Ok (VObj [(a, v)])).
Proof.
  intros Hpath Hnew Ha Hpaths.
  pose proof (newItem_element _ _ _ Hpath Hnew) as Hel.
  assert (Hkey : Regions.chunkKey new = "paths." ++ a).
  { assert (Hsplit : exists rest,
               Str.split "." (element new) = "paths" :: a :: rest).
    { rewrite Hel.
      change (JS.array_join "." (VStr "paths" :: VStr (a ++ "." ++ b) :: more))
        with ("paths" ++ String "."
                (JS.array_join "." (VStr (a ++ "." ++ b) :: more))).
      rewrite split_append by reflexivity.
      destruct more as [|x more'].
      - change (JS.array_join "." [VStr (a ++ "." ++ b)])
          with (a ++ String "." b).
        rewrite split_append by assumption. eauto.
      - change (JS.array_join "." (VStr (a ++ "." ++ b) :: x :: more'))
          with ((a ++ String "." b)
                  ++ String "." (JS.array_join "." (x :: more'))).
        rewrite sapp_assoc.
        change (String "." b ++ String "." (JS.array_join "." (x :: more')))
          with (String "." (b ++ String "." (JS.array_join "." (x :: more')))).
        rewrite split_append by assumption. eauto. }
    destruct Hsplit as [rest Hsplit].
    now rewrite (chunkKey_of_parts new _ Hsplit). }
  split; [exact Hkey|].
  rewrite Hkey. now apply yamlChunk_of_entry.
Qed.

Lemma dotted_path_entry_is_cut_witness :
  exists new,
    newItem versioned = Ok new
    /\ element new = "paths./v1.0/users.get"
    /\ Regions.chunkKey new = "paths./v1"
    /\ Regions.yamlChunk Sample.tree (Regions.chunkKey new)
       = Ok (VObj [("/v1", VUndefined)]).
Proof.
  eexists. split; [reflexivity|]. split; [reflexivity|].
  destruct (dotted_path_entry_is_cut versioned "/v1" "0/users" [VStr "get"] _
              Sample.tree _ eq_refl eq_refl eq_refl eq_refl) as [Hkey Hchunk].
  split; [exact Hkey|]. rewrite Hchunk. reflexivity.
Defined.

(** ** The groups of the reducer *)

Section GroupFacts.

Lemma push_absent k i acc :
  ~ In k (map fst acc) -> Regions.add k i acc = (acc ++ [(k, [i])])%list.
Proof.
  induction acc as [|[k' g] r IH]; simpl; intros Hk; [reflexivity|].
  destruct (String.eqb_spec k' k) as [->|Hne]; [tauto|].
  rewrite IH; [reflexivity|tauto].
Qed.

Lemma push_present k i acc :
  NoDup (map fst acc) ->
  In k (map fst acc) ->
  Regions.add k i acc
  = map (fun g => if fst g =? k then (fst g, (snd g ++ [i])%list) else g) acc.
Proof.
  induction acc as [|[k' g] r IH]; simpl; intros Hnd Hk; [contradiction|].
  apply NoDup_cons_iff in Hnd as [Hfresh Hnd].
  destruct (String.eqb_spec k' k) as [->|Hne].
  - f_equal. symmetry. rewrite <- (map_id r) at 2.
    apply map_ext_in. intros [k'' g'] Hin. simpl.
    destruct (String.eqb_spec k'' k) as [->|]; [|reflexivity].
    exfalso. apply Hfresh. now apply (in_map fst) in Hin.
  - f_equal. apply IH; [assumption|]. now destruct Hk.
Qed.

Lemma filter_none {A : Type} (f : A -> bool) (l : list A) :
  (forall x, In x l -> f x = false) -> filter f l = [].
Proof.
  induction l as [|x r IH]; intros H; simpl; [reflexivity|].
  rewrite (H x) by now left. apply IH. intros y Hy. apply H. now right.
Qed.

Lemma groups_snoc (l : list Issue) (i : Issue) :
  Regions.groups (l ++ [i])
  = Regions.add (Regions.chunkKey i) i (Regions.groups l).
Proof. unfold Regions.groups. now rewrite fold_left_app. Qed.

Lemma groups_keys (l : list Issue) (k : string) :
  In k (map fst (Regions.groups l))
  <-> In k (map Regions.chunkKey l).
Proof.
  induction l as [|i r IH] using rev_ind; [reflexivity|].
  rewrite groups_snoc, push_keys, map_app, in_app_iff. simpl.
  destruct (in_dec string_dec (Regions.chunkKey i)
              (map fst (Regions.groups r))) as [Hin|Hout].
  - rewrite IH. split; [tauto|]. intros [H|[<-|[]]]; [assumption|].
    now apply IH.
  - rewrite in_app_iff, IH. simpl. tauto.
Qed.

Lemma groups_nodup (l : list Issue) :
  NoDup (map fst (Regions.groups l)).
Proof.
  destruct (groups_invariant l []) as (_ & Hnd & _);
    [constructor|constructor|exact Hnd].
Qed.

Lemma groups_filters (l : list Issue) :
  Forall (fun g =>
            snd g = filter (fun i => Regions.chunkKey i =? fst g) l)
         (Regions.groups l).
Proof.
  induction l as [|i r IH] using rev_ind; [constructor|].
  rewrite groups_snoc.
  destruct (in_dec string_dec (Regions.chunkKey i)
              (map fst (Regions.groups r))) as [Hin|Hout].
  - rewrite push_present by (apply groups_nodup || assumption).
    apply Forall_map. eapply Forall_impl; [|exact IH].
    intros [k g] Hg. simpl in Hg. cbn [fst].
    destruct (String.eqb_spec k (Regions.chunkKey i)) as [Heq|Hne];
      cbn [fst snd]; rewrite filter_app; simpl.
    + rewrite <- Heq, String.eqb_refl. now rewrite Hg.
    + apply not_eq_sym in Hne. apply String.eqb_neq in Hne.
      now rewrite Hne, app_nil_r.
  - rewrite push_absent by assumption.
    apply Forall_app. split.
    + rewrite Forall_forall in *. intros [k g] Hin.
      specialize (IH _ Hin). simpl in *. rewrite filter_app. simpl.
      destruct (String.eqb_spec (Regions.chunkKey i) k) as [Heq|Hne].
      * exfalso. apply Hout. rewrite Heq.
        now apply (in_map fst) in Hin.
      * now rewrite app_nil_r.
    + repeat constructor. simpl. rewrite filter_app. simpl.
      rewrite String.eqb_refl, filter_none; [reflexivity|].
      intros j Hj. apply String.eqb_neq. intros Heq. apply Hout.
      apply groups_keys. rewrite <- Heq. now apply in_map.
Qed.

Lemma groups_first_seen (l : list Issue) :
  map fst (Regions.groups l) = first_seen (map Regions.chunkKey l).
Proof.
  unfold first_seen.
  induction l as [|i r IH] using rev_ind; [reflexivity|].
  rewrite groups_snoc, push_keys, map_app, rev_app_distr. simpl.
  destruct (in_dec string_dec (Regions.chunkKey i)
              (map fst (Regions.groups r))) as [Hin|Hout];
    destruct (in_dec string_dec (Regions.chunkKey i)
                (rev (map Regions.chunkKey r))) as [Hin'|Hout'].
  - exact IH.
  - exfalso. apply Hout'. rewrite <- in_rev. now apply groups_keys.
  - exfalso. apply Hout. apply groups_keys. now rewrite in_rev.
  - simpl. now rewrite IH.
Qed.

End GroupFacts.

(** The reducer keeps the order of the list, or throws.  It throws exactly
    when the key of some issue names a member of Object.prototype.  When it
    does not, the group of a key holds the issues of that key, all of them and
    in the order of the list (errors before warnings, as [getAiFixes] lists
    them); no group is empty; and the keys are created in the order in which
    each one comes first in the list. *)
Theorem groups_keep_order (allIssues : list Issue) :
  match Regions.errorsByChunkKey allIssues with
  | Ok groups =>
      Forall (fun i => JS.inherited (Regions.chunkKey i) = false) allIssues
      /\ Forall (fun g =>
                   snd g
                   = filter (fun i => Regions.chunkKey i =? fst g) allIssues
                   /\ snd g <> [])
                groups
      /\ map fst groups = first_seen (map Regions.chunkKey allIssues)
  | Throw _ =>
      exists i, In i allIssues /\ JS.inherited (Regions.chunkKey i) = true
  end.
Proof.
  rewrite errorsByChunkKey_spec.
  destruct (existsb _ allIssues) eqn:Hex.
  { apply existsb_exists in Hex. exact Hex. }
  split; [|split; [|apply groups_first_seen]].
  - apply Forall_forall. intros i Hin.
    destruct (JS.inherited (Regions.chunkKey i)) eqn:Hi; [|reflexivity].
    assert (Hyes : existsb (fun i => JS.inherited (Regions.chunkKey i))
                     allIssues = true) by (apply existsb_exists; eauto).
    congruence.
  - pose proof (groups_filters allIssues) as Hfilters.
    rewrite Forall_forall in *. intros [k g] Hin.
    specialize (Hfilters _ Hin). simpl in *. split; [assumption|].
    assert (Hk : In k (map Regions.chunkKey allIssues)).
    { apply groups_keys. now apply (in_map fst) in Hin. }
    apply in_map_iff in Hk as (j & Hj & Hjin).
    intros Hnil. rewrite Hnil in Hfilters.
    assert (Hmem : In j (filter (fun i => Regions.chunkKey i =? k) allIssues)).
    { apply filter_In. split; [assumption|]. now apply String.eqb_eq. }
    now rewrite <- Hfilters in Hmem.
Qed.

(** ** What the calls of one region carry *)

Section RegionCallFacts.
Variable E : Env.

Lemma chunks_redumped (fuel : nat) :
  forall key issues chunk main trace0,
    exists new,
      snd (Regions.chunks E fuel key issues chunk main trace0)
      = (trace0 ++ new)%list
      /\ redumped E chunk new.
Proof.
  induction fuel as [|fuel IH]; intros key issues chunk main trace0;
    cbn [Regions.chunks].
  - exists []. now rewrite app_nil_r.
  - destruct (0 <? List.length issues)%nat;
      [|exists []; now rewrite app_nil_r].
    destruct (yaml_dump E chunk) as [yaml|e] eqn:Hdump;
      [|exists []; now rewrite app_nil_r].
    destruct (callAiWithChunk_spec E Regions.exception_message yaml
                (firstn Regions.CHUNK_SIZE issues) trace0)
      as (c & Hcall & Hsent & _).
    unfold Regions.callAiWithChunk. rewrite Hcall.
    assert (Hfirst : yaml_dump E chunk = Ok (yamlContent (sent c)))
      by now rewrite Hdump, Hsent.
    destruct (Str.startsWith (returned c) "AI fix failed:");
      [exists [c]; simpl; auto|].
    destruct (yaml_load E (returned c)) as [fixed|e] eqn:Hload; cbn [bind];
      [|exists [c]; simpl; auto].
    destruct (Regions.merge main key fixed) as [main'|e]; cbn [bind];
      [|exists [c]; simpl; auto].
    destruct (IH key (skipn Regions.CHUNK_SIZE issues) fixed main'
                (trace0 ++ [c])%list) as (new & Hnew & Hre).
    exists (c :: new). rewrite Hnew, <- app_assoc.
    split; [reflexivity|]. split; [assumption|].
    destruct new; [exact I|]. eauto.
Qed.

End RegionCallFacts.

(** Inside a region the answer of one call is the chunk of the next.  The
    first call of the loop of a key carries the dump of the chunk taken out
    of the document; each later call carries the dump of what the answer
    before it loaded as, whatever keys that answer has, and not a chunk taken
    out of the merged document again. *)
Theorem answers_are_the_next_chunk (E : Env) (key : string)
    (issuesForChunk : list Issue) (yamlChunkObject mainYamlObject : value)
    (trace : list call) :
  exists new,
    snd (Regions.chunks E (List.length issuesForChunk) key issuesForChunk
           yamlChunkObject mainYamlObject trace)
    = (trace ++ new)%list
    /\ redumped E yamlChunkObject new.
Proof. apply chunks_redumped. Qed.

(** ** How a run of the draft with regions ends *)

Section OutcomeFacts.
Variable E : Env.

Lemma get_nullish (main : value) (k : string) :
  JS.nullish main = true -> exists e, JS.get main k = Throw e.
Proof. destruct main; try discriminate; simpl; eauto. Qed.

Lemma yamlChunk_nullish (main : value) (key : string) :
  JS.nullish main = true -> exists e, Regions.yamlChunk main key = Throw e.
Proof.
  intros Hmain. unfold Regions.yamlChunk.
  destruct (1 <? List.length (Str.split "." key))%nat.
  - destruct (get_nullish main "paths" Hmain) as [e ->]. simpl. eauto.
  - destruct (get_nullish main key Hmain) as [e ->]. simpl. eauto.
Qed.

Lemma groups_nonempty (allIssues : list Issue) :
  allIssues <> [] ->
  JS.ordered (Regions.groups allIssues) <> [].
Proof.
  intros Hne Hnil.
  pose proof (ordered_permutation (Regions.groups allIssues)) as Hord.
  rewrite Hnil in Hord. apply Permutation_nil in Hord.
  destruct (groups_invariant allIssues []) as (Hperm & _);
    [constructor|constructor|].
  fold (Regions.groups allIssues) in Hperm.
  rewrite Hord in Hperm. simpl in Hperm.
  apply Permutation_nil in Hperm. contradiction.
Qed.

Lemma ends_return_failure (fl : flow value) (new : list call) (result : string) :
  ends E fl new -> fl = Return result ->
  Str.startsWith result "AI fix failed:" = true.
Proof.
  intros Hends Hfl.
  destruct Hends as [main new Hall|e new Hall|good c Hall Hc|good c Hall Hc];
    try discriminate; injection Hfl as <-; [exact Hc|reflexivity].
Qed.

End OutcomeFacts.

(** A document that loads as nothing cannot be fixed.  When the uploaded text
    does not load as YAML, or loads as [undefined] or [null] (an empty file, a
    file of comments) while there is an issue to fix, [getAiFixes] returns the
    sentence on a critical error, and the service is not called. *)
Theorem nothing_to_fix_is_critical (E : Env) (content : string)
    (issues : formatted) :
  configured E = true ->
  (exists e, yaml_load E content = Throw e)
  \/ (exists main,
         yaml_load E content = Ok main /\ JS.nullish main = true
         /\ (errors issues ++ warnings issues)%list <> []) ->
  Regions.getAiFixes E content issues [] = (Regions.critical, []).
Proof.
  intros Hkey Hload. unfold Regions.getAiFixes. rewrite Hkey. simpl negb.
  cbv iota.
  destruct Hload as [[e ->]|(main & -> & Hmain & Hsome)]; [reflexivity|].
  destruct (Regions.errorsByChunkKey _) as [groups|e] eqn:Hgroups;
    [|reflexivity].
  apply errorsByChunkKey_groups in Hgroups. subst groups.
  apply groups_nonempty in Hsome.
  destruct (JS.ordered _) as [|[key group] rest]; [contradiction|].
  cbn [Regions.regions].
  destruct (yamlChunk_nullish main key Hmain) as [e ->]. reflexivity.
Qed.

Lemma nothing_to_fix_is_critical_witness :
  Regions.getAiFixes loading_nothing "" Sample.issues []
  = ("AI fix failed: A critical error occurred while processing the YAML.", []).
Proof.
  apply nothing_to_fix_is_critical; [reflexivity|].
  right. exists VUndefined. repeat split. discriminate.
Defined.

(** No partial fix passes for a fix.  When the key is configured and the
    string [getAiFixes] returns does not start with "AI fix failed:", every
    chunk of the partition was sent, in the order of the partition, every
    answer was taken (it is no failure and it loads as YAML), and the string
    is the dump of a document. *)
Theorem fix_is_complete (E : Env) (content : string) (issues : formatted) :
  configured E = true ->
  Str.startsWith (fst (Regions.getAiFixes E content issues []))
                 "AI fix failed:" = false ->
  map batch (snd (Regions.getAiFixes E content issues []))
  = map snd (Regions.partition (errors issues ++ warnings issues)%list)
  /\ Forall (clean E) (snd (Regions.getAiFixes E content issues []))
  /\ exists main,
       yaml_dump E main = Ok (fst (Regions.getAiFixes E content issues [])).
Proof.
  intros Hkey. unfold Regions.getAiFixes. rewrite Hkey. simpl negb. cbv iota.
  destruct (yaml_load E content) as [main|e]; [|discriminate].
  destruct (Regions.errorsByChunkKey _) as [groups|e] eqn:Hgroups;
    [|discriminate].
  apply errorsByChunkKey_groups in Hgroups. subst groups.
  destruct (Regions.regions E _ main []) as [fl trace] eqn:Hrun.
  pose proof Hrun as Htrace.
  apply regions_trace in Htrace; [|constructor].
  destruct Htrace as (new & Hnew & _ & Hends & _ & Hall).
  simpl in Hnew. subst new.
  destruct fl as [m|result|e].
  - destruct (yaml_dump E m) as [s|e] eqn:Hdump; [|discriminate].
    intros _. simpl. split; [|split].
    + unfold Regions.partition. rewrite partition_batches.
      symmetry. now apply (Hall m).
    + now apply (ends_next_clean E _ _ m Hends).
    + eauto.
  - simpl. intros Hgood.
    rewrite (ends_return_failure E _ _ result Hends eq_refl) in Hgood.
    discriminate.
  - discriminate.
Qed.

Lemma fix_is_complete_witness :
  map batch
      (snd (Regions.getAiFixes (Sample.env (fun _ => Sample.echo))
              Sample.document Sample.issues []))
  = [[Sample.users_error]; [Sample.info_warning]]
  /\ Forall (clean (Sample.env (fun _ => Sample.echo)))
            (snd (Regions.getAiFixes (Sample.env (fun _ => Sample.echo))
                    Sample.document Sample.issues [])).
Proof.
  destruct (fix_is_complete (Sample.env (fun _ => Sample.echo))
              Sample.document Sample.issues eq_refl eq_refl)
    as (Hsent & Hclean & _).
  split; [rewrite Hsent; reflexivity|exact Hclean].
Defined.

(** ** What a merge writes, where no write finds a setter *)

(** The merge writes exactly the properties of the fixed chunk at the place
    the key stands for, when that place is a mapping and no write finds the
    setter of "__proto__" (the fixed chunk has no property of that name, or
    the place has one of its own).  For a top-level key the place is the
    document: each property of the fixed chunk is written, every other
    property keeps its value and its place, and the only new names are names
    of the fixed chunk.  For a path key the place is the mapping [paths]: the
    same holds of its entries, the names of the document and their order stay
    as they were, and every other property of the document in which the
    mapping [paths] does not occur keeps its value. *)
Theorem merge_overwrites_exactly (props : list (string * value)) (key : string)
    (fixed : value) :
  ((1 <? List.length (Str.split "." key))%nat = false ->
   setter_free props (JS.own_props fixed) ->
   exists props',
     Regions.merge (VObj props) key fixed = Ok (VObj props')
     /\ overwritten props props' (JS.own_props fixed))
  /\ ((1 <? List.length (Str.split "." key))%nat = true ->
      forall entries,
        JS.lookup "paths" props = Some (VObj entries) ->
        setter_free entries (JS.own_props fixed) ->
        exists entries',
          Regions.merge (VObj props) key fixed
            = Ok (VObj (JS.set "paths" (VObj entries') props))
          /\ overwritten entries entries' (JS.own_props fixed)
          /\ keys (JS.set "paths" (VObj entries') props) = keys props
          /\ forall k v,
               k <> "paths" ->
               JS.lookup k props = Some v ->
               ~ within (VObj entries) v ->
               JS.lookup k (JS.set "paths" (VObj entries') props) = Some v).
Proof.
  unfold Regions.merge. split; intros Hkey; rewrite Hkey.
  - intros Hfree. eexists. rewrite Object_assign_writes by assumption.
    split; [reflexivity|]. apply assign_overwritten.
  - intros entries Hp Hfree. eexists. simpl. rewrite Hp. cbn [bind].
    rewrite Object_assign_writes by assumption. cbn [bind Regions.changed].
    split; [reflexivity|]. split; [apply assign_overwritten|]. split.
    + apply keys_set_present, lookup_in_keys. eauto.
    + intros k v Hk Hv _. rewrite lookup_set_other by congruence. exact Hv.
Qed.

Lemma merge_overwrites_exactly_witness :
  (exists props',
      Regions.merge Sample.tree "info"
        (VObj [("info", VObj [("title", VStr "Demo API")])])
      = Ok (VObj props')
      /\ JS.lookup "info" props' = Some (VObj [("title", VStr "Demo API")])
      /\ JS.lookup "openapi" props' = Some (VStr "3.0.0"))
  /\ (exists entries',
         Regions.merge Sample.tree "paths./users"
           (VObj [("/users", VObj [("summary", VStr "All users")])])
         = Ok (VObj (JS.set "paths" (VObj entries')
                            [("openapi", VStr "3.0.0"); ("info", Sample.info);
                             ("paths", VObj [("/users", Sample.users);
                                             ("/orders", Sample.orders)])]))
         /\ JS.lookup "/orders" entries' = Some Sample.orders).
Proof.
  split.
  - destruct (merge_overwrites_exactly
                [("openapi", VStr "3.0.0"); ("info", Sample.info);
                 ("paths", VObj [("/users", Sample.users);
                                 ("/orders", Sample.orders)])]
                "info" (VObj [("info", VObj [("title", VStr "Demo API")])]))
      as [Htop _].
    destruct (Htop eq_refl) as (props' & Hm & Hlook & _).
    { intros [H|[]]. discriminate. }
    exists props'. split; [exact Hm|]. rewrite !Hlook. split; reflexivity.
  - destruct (merge_overwrites_exactly
                [("openapi", VStr "3.0.0"); ("info", Sample.info);
                 ("paths", VObj [("/users", Sample.users);
                                 ("/orders", Sample.orders)])]
                "paths./users"
                (VObj [("/users", VObj [("summary", VStr "All users")])]))
      as [_ Hpath].
    destruct (Hpath eq_refl _ eq_refl) as (entries' & Hm & [Hlook _] & _).
    { intros [H|[]]. discriminate. }
    exists entries'. split; [exact Hm|]. rewrite Hlook. reflexivity.
Defined.

(** Where no write finds the setter of "__proto__" and the place the key
    stands for is a mapping, merging a fixed chunk a second time changes
    nothing: the second merge gives what the first one gave. *)
Theorem merge_idempotent (props : list (string * value)) (key : string)
    (fixed : value) :
  ((1 <? List.length (Str.split "." key))%nat = false ->
   setter_free props (JS.own_props fixed) ->
   exists once,
     Regions.merge (VObj props) key fixed = Ok once
     /\ Regions.merge once key fixed = Ok once)
  /\ ((1 <? List.length (Str.split "." key))%nat = true ->
      forall entries,
        JS.lookup "paths" props = Some (VObj entries) ->
        setter_free entries (JS.own_props fixed) ->
        exists once,
          Regions.merge (VObj props) key fixed = Ok once
          /\ Regions.merge once key fixed = Ok once).
Proof.
  unfold Regions.merge. split; intros Hkey; rewrite Hkey.
  - intros Hfree. eexists. rewrite Object_assign_writes by assumption.
    split; [reflexivity|].
    rewrite Object_assign_writes by now apply writes_setter_free.
    now rewrite writes_idempotent.
  - intros entries Hp Hfree. eexists. simpl. rewrite Hp. cbn [bind].
    rewrite Object_assign_writes by assumption. cbn [bind Regions.changed].
    split; [reflexivity|].
    cbn [JS.get]. rewrite lookup_set_same. cbn [bind].
    rewrite Object_assign_writes by now apply writes_setter_free.
    cbn [bind Regions.changed]. now rewrite writes_idempotent, set_set.
Qed.

Lemma merge_idempotent_witness :
  exists once,
    Regions.merge Sample.tree "paths./users"
      (VObj [("/users", VObj [("summary", VStr "All users")])]) = Ok once
    /\ Regions.merge once "paths./users"
         (VObj [("/users", VObj [("summary", VStr "All users")])]) = Ok once.
Proof.
  destruct (merge_idempotent
              [("openapi", VStr "3.0.0"); ("info", Sample.info);
               ("paths", VObj [("/users", Sample.users);
                               ("/orders", Sample.orders)])]
              "paths./users"
              (VObj [("/users", VObj [("summary", VStr "All users")])]))
    as [_ Hpath].
  apply (Hpath eq_refl _ eq_refl). intros [H|[]]. discriminate.
Defined.
